(** * Iterative midpoint refinement: a shallow embedding of [main.py] and
    [main_gif.py]

    Points are pairs of Python floats, that is IEEE 754 binary64 numbers,
    which are Rocq's primitive floats; an [int] coordinate is read as the
    float of the same value.  An exception raised by the Python code is a
    [Raise] result.  The recursion of [refine_path] is bounded by a
    recursion budget [fuel], as the interpreter bounds it by its recursion
    limit: a call entered with no budget left raises [RecursionError]. *)

From Stdlib Require Import List ZArith Lia Bool Floats.
Import ListNotations.

Set Warnings "-inexact-float".

(** ** Exceptions and results *)

Inductive exn : Type :=
| ZeroDivisionError
| RecursionError.

Inductive result (A : Type) : Type :=
| Ok (a : A)
| Raise (e : exn).

Arguments Ok {A} a.
Arguments Raise {A} e.

Definition rbind {A B : Type} (r : result A) (k : A -> result B) : result B :=
  match r with
  | Ok a => k a
  | Raise e => Raise e
  end.

Declare Scope result_scope.
Delimit Scope result_scope with result.
Notation "x <- r ;; k" := (rbind r (fun x => k))
  (at level 61, r at next level, right associativity) : result_scope.

(** ** Numbers *)

Definition point : Type := float * float.
Definition polygon : Type := list point.
Definition path : Type := list point.

(** Reading a list out of range does not happen in the loops below; [nth]
    needs a default all the same. *)
Definition origin : point := (0%float, 0%float).

(** A Python [int] read as a float.  Exact below [2^53], which covers the
    loop counters of the program. *)
Definition float_of_Z (z : Z) : float :=
  match z with
  | Z0 => 0%float
  | Zpos _ => of_uint63 (Uint63.of_Z z)
  | Zneg n => (- of_uint63 (Uint63.of_Z (Zpos n)))%float
  end.

Definition float_of_nat (n : nat) : float := float_of_Z (Z.of_nat n).

(** [x / y] on floats: Python raises when the divisor is zero (of either
    sign) and follows IEEE 754 otherwise. *)
Definition truediv (x y : float) : result float :=
  if (y =? 0)%float then Raise ZeroDivisionError else Ok (x / y)%float.

(** [i / steps] on two [int]s. *)
Definition int_truediv (i steps : Z) : result float :=
  if (steps =? 0)%Z then Raise ZeroDivisionError
  else Ok (float_of_Z i / float_of_Z steps)%float.

(** ** [sorted] and [list.sort(key=...)]

    Python's sort is stable and compares with [<] only.  On keys that [<]
    orders totally every stable sort returns the same list; the model is the
    stable insertion sort. *)

Section Sorting.
Context {A : Type}.
Variable key : A -> float.

Fixpoint insert_by (x : A) (l : list A) : list A :=
  match l with
  | [] => [x]
  | y :: r => if (key x <? key y)%float then x :: y :: r
              else y :: insert_by x r
  end.

Definition sort_by (l : list A) : list A :=
  fold_left (fun acc x => insert_by x acc) l [].
End Sorting.

Definition sorted (l : list float) : list float := sort_by (fun t => t) l.

(** ** Geometry utilities *)

Section Geometry.
Local Open Scope float_scope.
Local Open Scope result_scope.

(** The body of the loop of [point_in_polygon]: does the edge between
    [poly[i]] and [poly[j]] toggle [inside]?  The division is evaluated
    only when the first conjunct holds. *)
Definition edge_toggles (pt vi vj : point) : result bool :=
  let '(x, y) := pt in
  let '(xi, yi) := vi in
  let '(xj, yj) := vj in
  if negb (Bool.eqb (y <? yi) (y <? yj)) then
    d <- truediv ((xj - xi) * (y - yi)) (yj - yi + 1e-10) ;;
    Ok (x <? d + xi)
  else Ok false.

Fixpoint point_in_polygon_loop (pt : point) (poly : polygon)
    (range : list nat) (j : nat) (inside : bool) : result bool :=
  match range with
  | [] => Ok inside
  | i :: range' =>
      c <- edge_toggles pt (nth i poly origin) (nth j poly origin) ;;
      point_in_polygon_loop pt poly range' i (if c then negb inside else inside)
  end.

Definition point_in_polygon (pt : point) (poly : polygon) : result bool :=
  let n := length poly in
  point_in_polygon_loop pt poly (seq 0 n) (n - 1) false.

(** The divisions by [denom] run only when [abs(denom) >= 1e-10] (or
    [denom] is not a number), so they never raise:
    see [guarded_denominator_nonzero]. *)
Definition line_intersection (p q a b : point) : option (float * float) :=
  let '(x1, y1) := p in
  let '(x2, y2) := q in
  let '(x3, y3) := a in
  let '(x4, y4) := b in
  let denom := (x1 - x2) * (y3 - y4) - (y1 - y2) * (x3 - x4) in
  if abs denom <? 1e-10 then None
  else
    let t := ((x1 - x3) * (y3 - y4) - (y1 - y3) * (x3 - x4)) / denom in
    let u := ((x1 - x3) * (y1 - y2) - (y1 - y3) * (x1 - x2)) / denom in
    Some (t, u).

Definition edge_parameter (p q : point) (poly : polygon) (i : nat)
  : list float :=
  let n := length poly in
  let a := nth i poly origin in
  let b := nth ((i + 1) mod n) poly origin in
  match line_intersection p q a b with
  | Some (t, u) =>
      if (0 <=? t) && (t <=? 1) && ((0 <=? u) && (u <=? 1)) then [t] else []
  | None => []
  end.

Definition polygon_line_intersections (p q : point) (poly : polygon)
  : list float :=
  sorted (flat_map (edge_parameter p q poly) (seq 0 (length poly))).

Definition interpolate (p : point) (t : float) (q : point) : point :=
  (fst p * (1 - t) + fst q * t, snd p * (1 - t) + snd q * t).
End Geometry.

(** ** Escape search, collision oracle and path refiner

    [math.hypot] belongs to the Python runtime, not to the repository: it
    is a parameter of everything that calls it. *)

Section Refinement.
Variable hypot : float -> float -> float.

Local Open Scope float_scope.
Local Open Scope result_scope.

(** The divisions run only when [mag == 0] is false. *)
Definition perpendicular_direction (p q : point) : point :=
  let dx := fst q - fst p in
  let dy := snd q - snd p in
  let mag := hypot dx dy in
  if mag =? 0 then (0, 0) else ((- dy) / mag, dx / mag).

(** The inner loop of [adjust_point_out_of_polygon] for one [sign]: the
    first candidate that is not inside [poly], with its displacement
    [i*step], or nothing when [range(max_iter)] is exhausted. *)
Fixpoint escape_walk (poly : polygon) (sign step : float) (perp : point)
    (range : list nat) (candidate : point) : result (option (point * float)) :=
  match range with
  | [] => Ok None
  | i :: range' =>
      inside <- point_in_polygon candidate poly ;;
      if negb inside then Ok (Some (candidate, float_of_nat i * step))
      else escape_walk poly sign step perp range'
             (fst candidate + sign * step * fst perp,
              snd candidate + sign * step * snd perp)
  end.

(** The outer loop, over the signs. *)
Fixpoint escape_candidates (mid : point) (poly : polygon) (step : float)
    (perp : point) (max_iter : nat) (signs : list float)
    (candidates : list (point * float)) : result (list (point * float)) :=
  match signs with
  | [] => Ok candidates
  | sign :: signs' =>
      found <- escape_walk poly sign step perp (seq 0 max_iter) mid ;;
      escape_candidates mid poly step perp max_iter signs'
        (match found with
         | Some c => candidates ++ [c]
         | None => candidates
         end)
  end.

Definition adjust_point_out_of_polygon (mid p q : point) (poly : polygon)
    (step : float) (max_iter : nat) : result point :=
  let perp := perpendicular_direction p q in
  candidates <- escape_candidates mid poly step perp max_iter [1; -1] [] ;;
  match sort_by snd candidates with
  | [] => Ok mid
  | c :: _ => Ok (fst c)
  end.

(** The inner loop of [is_collision_free_poly]: is [pt] inside one of the
    obstacles?  The loop stops at the first obstacle that holds it. *)
Fixpoint inside_some (pt : point) (obstacles : list polygon) : result bool :=
  match obstacles with
  | [] => Ok false
  | poly :: obstacles' =>
      inside <- point_in_polygon pt poly ;;
      if inside then Ok true else inside_some pt obstacles'
  end.

Fixpoint collision_free_loop (p q : point) (obstacles : list polygon)
    (steps : Z) (range : list nat) : result bool :=
  match range with
  | [] => Ok true
  | i :: range' =>
      t <- int_truediv (Z.of_nat i) steps ;;
      hit <- inside_some (interpolate p t q) obstacles ;;
      if hit then Ok false
      else collision_free_loop p q obstacles steps range'
  end.

Definition is_collision_free_poly (p q : point) (obstacles : list polygon)
    (steps : Z) : result bool :=
  collision_free_loop p q obstacles steps (seq 0 (Z.to_nat (steps + 1))).

(** The second loop of [refine_path]: the arithmetic midpoint, moved out
    of each obstacle that holds it, in iteration order. *)
Fixpoint fallback_midpoint (p q : point) (obstacles : list polygon)
    (mid : point) : result point :=
  match obstacles with
  | [] => Ok mid
  | poly :: obstacles' =>
      inside <- point_in_polygon mid poly ;;
      if inside then
        mid' <- adjust_point_out_of_polygon mid p q poly 0.2 20 ;;
        fallback_midpoint p q obstacles' mid'
      else fallback_midpoint p q obstacles' mid
  end.

(** *** Calls that change the process state

    A call of [refine_path] runs on the process state ([segments] in
    [main.py], the frame counter and the written frames in [main_gif.py])
    and leaves it changed also when it raises. *)

Definition M (St A : Type) : Type := St -> result A * St.

Definition ret {St A : Type} (a : A) : M St A := fun s => (Ok a, s).

Definition lift {St A : Type} (r : result A) : M St A := fun s => (r, s).

Definition bind {St A B : Type} (m : M St A) (k : A -> M St B) : M St B :=
  fun s =>
    match m s with
    | (Ok a, s') => k a s'
    | (Raise e, s') => (Raise e, s')
    end.

Definition modify {St : Type} (f : St -> St) : M St unit :=
  fun s => (Ok tt, f s).

Declare Scope state_scope.
Delimit Scope state_scope with state.
Notation "x <~ m ;; k" := (bind m (fun x => k))
  (at level 61, m at next level, right associativity) : state_scope.

Local Open Scope state_scope.

(** What follows the first statement is the same text in both files; it is
    written once, over the recursive call [self p q] (which stands for
    [refine_path(p, q, obstacles, tolerance, depth+1)]). *)
Section Body.
Context {St : Type}.
Variable self : point -> point -> M St path.

(** [left_path[:-1] + right_path] of the two recursive calls. *)
Definition split_at (p mid q : point) : M St path :=
  left_path <~ self p mid ;;
  right_path <~ self mid q ;;
  ret (removelast left_path ++ right_path).

Definition fallback_branch (p q : point) (obstacles : list polygon)
    (tolerance : float) : M St path :=
  mid <~ lift (fallback_midpoint p q obstacles
                 ((fst p + fst q) / 2, (snd p + snd q) / 2)) ;;
  if hypot (fst p - fst mid) (snd p - snd mid) <? tolerance
  then ret [p; mid; q]
  else split_at p mid q.

(** The first loop of [refine_path], over the obstacles still to try;
    [all_obstacles] is the whole list, for the fallback. *)
Fixpoint intersection_branch (p q : point) (all_obstacles : list polygon)
    (tolerance : float) (obstacles : list polygon) : M St path :=
  match obstacles with
  | [] => fallback_branch p q all_obstacles tolerance
  | poly :: obstacles' =>
      let ts := polygon_line_intersections p q poly in
      if (2 <=? length ts)%nat then
        let t_in := nth 0 ts 0 in
        let t_out := last ts 0 in
        let t_mid := (t_in + t_out) / 2 in
        let mid_candidate := interpolate p t_mid q in
        mid_adjusted <~ lift (adjust_point_out_of_polygon
                                mid_candidate p q poly 0.2 20) ;;
        split_at p mid_adjusted q
      else intersection_branch p q all_obstacles tolerance obstacles'
  end.

Definition refine_body (p q : point) (obstacles : list polygon)
    (tolerance : float) : M St path :=
  free <~ lift (is_collision_free_poly p q obstacles 20) ;;
  if free then ret [p; q]
  else intersection_branch p q obstacles tolerance obstacles.
End Body.

(** *** [main.py] *)

(** An entry of [segments]: [(p, q, depth)]. *)
Definition segment_record : Type := point * point * Z.

Fixpoint refine_path (fuel : nat) (p q : point) (obstacles : list polygon)
    (tolerance : float) (depth : Z) : M (list segment_record) path :=
  match fuel with
  | O => lift (Raise RecursionError)
  | S fuel' =>
      _ <~ modify (fun segments => segments ++ [(p, q, depth)]) ;;
      refine_body
        (fun p' q' => refine_path fuel' p' q' obstacles tolerance (depth + 1))
        p q obstacles tolerance
  end.

(** *** [main_gif.py] *)

(** What [save_frame] leaves behind: the counter and, for each file
    [frame_NNN.png] written, its number and what it shows. *)
Record gif_state : Type := {
  frame_counter : nat;
  frames : list (nat * (point * point * Z))
}.

Definition save_frame (p q : point) (iteration : Z) (g : gif_state)
  : gif_state :=
  {| frame_counter := S (frame_counter g);
     frames := frames g ++ [(frame_counter g, (p, q, iteration))] |}.

Fixpoint gif_refine_path (fuel : nat) (p q : point)
    (obstacles : list polygon) (tolerance : float) (iteration : Z)
  : M gif_state path :=
  match fuel with
  | O => lift (Raise RecursionError)
  | S fuel' =>
      _ <~ modify (save_frame p q iteration) ;;
      refine_body
        (fun p' q' =>
           gif_refine_path fuel' p' q' obstacles tolerance (iteration + 1))
        p q obstacles tolerance
  end.
End Refinement.

(** ** Concrete inputs

    A stand-in for [math.hypot] where a concrete run needs one; it agrees
    with it wherever the square root is exact, as on the axis-aligned chords
    used below. *)
Definition hypot_sqrt (dx dy : float) : float :=
  sqrt (dx * dx + dy * dy)%float.

Definition square : polygon := [(4, 4); (7, 4); (7, 7); (4, 7)]%float.
Definition triangle : polygon := [(2, 8); (3, 11); (1, 10)]%float.
Definition thin_triangle : polygon := [(1, 0); (0, 1e-10); (1, 1)]%float.
Definition far_square : polygon := [(8, 7); (9, 7); (9, 10); (8, 10)]%float.
Definition no_frames : gif_state := {| frame_counter := 0; frames := [] |}.
Definition wide_square : polygon :=
  [(0, 0); (100, 0); (100, 100); (0, 100)]%float.

(** * Vocabulary of the properties *)

(** ** Order *)

(** A float that is a number: [<=] relates it to itself. *)
Definition comparable (x : float) : Prop := Prim2SF x <> S754_nan.

Section Ascending.
Context {A : Type}.
Variable key : A -> float.

Definition key_le (a b : A) : Prop := (key a <=? key b)%float = true.

(** Ascending order of the keys: each element is below all the later
    ones. *)
Fixpoint ascending (l : list A) : Prop :=
  match l with
  | [] => True
  | a :: r => Forall (key_le a) r /\ ascending r
  end.

Definition keys_comparable (l : list A) : Prop :=
  Forall (fun a => comparable (key a)) l.
End Ascending.

(** ** The walk of the escape search *)

Section Walk.
Local Open Scope float_scope.

(** One move of the candidate along [sign * perp]. *)
Definition move (sign step : float) (perp c : point) : point :=
  (fst c + sign * step * fst perp, snd c + sign * step * snd perp).

(** The candidate after [k] moves from [mid]. *)
Fixpoint nth_candidate (sign step : float) (perp : point) (k : nat)
    (mid : point) : point :=
  match k with
  | O => mid
  | S k' => nth_candidate sign step perp k' (move sign step perp mid)
  end.

(** [k] moves reach the first candidate outside [poly], within
    [max_iter] tests. *)
Definition first_exit (poly : polygon) (sign step : float) (perp : point)
    (max_iter : nat) (mid : point) (k : nat) : Prop :=
  (k < max_iter)%nat /\
  point_in_polygon (nth_candidate sign step perp k mid) poly = Ok false /\
  forall i, (i < k)%nat ->
    point_in_polygon (nth_candidate sign step perp i mid) poly = Ok true.

(** All the [max_iter] candidates tested are inside [poly]. *)
Definition no_exit (poly : polygon) (sign step : float) (perp : point)
    (max_iter : nat) (mid : point) : Prop :=
  forall i, (i < max_iter)%nat ->
    point_in_polygon (nth_candidate sign step perp i mid) poly = Ok true.

(** The displacements [i*step] of [range(max_iter)] grow with [i]. *)
Definition displacement_increasing (step : float) (max_iter : nat) : bool :=
  forallb
    (fun j =>
       forallb (fun i => float_of_nat i * step <? float_of_nat j * step)
         (seq 0 j))
    (seq 0 max_iter).
End Walk.

(** ** The state machine of a call

    Each call of [refine_path] accepts the segment, ends with the fallback
    midpoint, splits at a point and recurses twice, or raises. *)

Inductive outcome : Type :=
| Accept
| Split (mid : point)
| Terminate (mid : point)
| Fails (e : exn).

Section Outcome.
Variable hypot : float -> float -> float.
Local Open Scope float_scope.

Definition fallback_outcome (p q : point) (obstacles : list polygon)
    (tolerance : float) : outcome :=
  match fallback_midpoint hypot p q obstacles
          ((fst p + fst q) / 2, (snd p + snd q) / 2) with
  | Raise e => Fails e
  | Ok mid =>
      if hypot (fst p - fst mid) (snd p - snd mid) <? tolerance
      then Terminate mid else Split mid
  end.

Fixpoint intersection_outcome (p q : point) (all_obstacles : list polygon)
    (tolerance : float) (obstacles : list polygon) : outcome :=
  match obstacles with
  | [] => fallback_outcome p q all_obstacles tolerance
  | poly :: obstacles' =>
      let ts := polygon_line_intersections p q poly in
      if (2 <=? length ts)%nat then
        match adjust_point_out_of_polygon hypot
                (interpolate p ((nth 0 ts 0 + last ts 0) / 2) q)
                p q poly 0.2 20 with
        | Ok mid => Split mid
        | Raise e => Fails e
        end
      else intersection_outcome p q all_obstacles tolerance obstacles'
  end.

Definition call_outcome (p q : point) (obstacles : list polygon)
    (tolerance : float) : outcome :=
  match is_collision_free_poly p q obstacles 20 with
  | Raise e => Fails e
  | Ok true => Accept
  | Ok false => intersection_outcome p q obstacles tolerance obstacles
  end.

(** The path a call returns, as the state machine gives it, with no
    process state. *)
Fixpoint path_of (fuel : nat) (p q : point) (obstacles : list polygon)
    (tolerance : float) : result path :=
  match fuel with
  | O => Raise RecursionError
  | S fuel' =>
      match call_outcome p q obstacles tolerance with
      | Accept => Ok [p; q]
      | Terminate mid => Ok [p; mid; q]
      | Fails e => Raise e
      | Split mid =>
          match path_of fuel' p mid obstacles tolerance with
          | Raise e => Raise e
          | Ok left_path =>
              match path_of fuel' mid q obstacles tolerance with
              | Raise e => Raise e
              | Ok right_path => Ok (removelast left_path ++ right_path)
              end
          end
      end
  end.

(** The calls of [refine_path] that a call makes, itself first, in the
    order they are entered, each as its [(p, q, depth)].  The second
    recursive call is made only when the first returns. *)
Fixpoint calls (fuel : nat) (p q : point) (obstacles : list polygon)
    (tolerance : float) (depth : Z) : list segment_record :=
  match fuel with
  | O => []
  | S fuel' =>
      (p, q, depth) ::
      match call_outcome p q obstacles tolerance with
      | Split mid =>
          calls fuel' p mid obstacles tolerance (depth + 1) ++
          match path_of fuel' p mid obstacles tolerance with
          | Ok _ => calls fuel' mid q obstacles tolerance (depth + 1)
          | Raise _ => []
          end
      | _ => []
      end
  end.
End Outcome.

(** * The divisions as they are written

    [line_intersection] and [perpendicular_direction] divide behind a guard;
    here each division can raise, as [/] does in the source. *)

Section WrittenDivisions.
Variable hypot : float -> float -> float.
Local Open Scope float_scope.
Local Open Scope result_scope.

Definition line_intersection_written (p q a b : point)
  : result (option (float * float)) :=
  let '(x1, y1) := p in
  let '(x2, y2) := q in
  let '(x3, y3) := a in
  let '(x4, y4) := b in
  let denom := (x1 - x2) * (y3 - y4) - (y1 - y2) * (x3 - x4) in
  if abs denom <? 1e-10 then Ok None
  else
    t <- truediv ((x1 - x3) * (y3 - y4) - (y1 - y3) * (x3 - x4)) denom ;;
    u <- truediv ((x1 - x3) * (y1 - y2) - (y1 - y3) * (x1 - x2)) denom ;;
    Ok (Some (t, u)).

Definition perpendicular_direction_written (p q : point) : result point :=
  let dx := fst q - fst p in
  let dy := snd q - snd p in
  let mag := hypot dx dy in
  if mag =? 0 then Ok (0, 0)
  else
    x <- truediv (- dy) mag ;;
    y <- truediv dx mag ;;
    Ok (x, y).
End WrittenDivisions.

(** * More vocabulary *)

Section MoreVocabulary.
Local Open Scope float_scope.

(** No edge of the ring makes the slope denominator of [point_in_polygon]
    zero: the edge of index [i] runs from [poly[i]] to the vertex before it,
    the last vertex for [i = 0]. *)
Definition slopes_defined (poly : polygon) : bool :=
  let n := length poly in
  forallb
    (fun i =>
       let yi := snd (nth i poly origin) in
       let yj := snd (nth ((i + n - 1) mod n) poly origin) in
       negb (yj - yi + 1e-10 =? 0))
    (seq 0 n).

(** The sample of index [i] that [is_collision_free_poly] tests. *)
Definition sample (p q : point) (steps : Z) (i : nat) : point :=
  interpolate p (float_of_Z (Z.of_nat i) / float_of_Z steps) q.

(** The loop of [point_in_polygon] by vertices: [prev] is the vertex
    before the first of [vs]. *)
Fixpoint ring_loop (pt prev : point) (vs : list point) (inside : bool)
  : result bool :=
  match vs with
  | [] => Ok inside
  | v :: vs' =>
      match edge_toggles pt v prev with
      | Raise e => Raise e
      | Ok c => ring_loop pt v vs' (if c then negb inside else inside)
      end
  end.

(** The same over a list of edges, each a vertex with the one before. *)
Fixpoint edges_loop (pt : point) (edges : list (point * point))
    (inside : bool) : result bool :=
  match edges with
  | [] => Ok inside
  | (v, prev) :: edges' =>
      match edge_toggles pt v prev with
      | Raise e => Raise e
      | Ok c => edges_loop pt edges' (if c then negb inside else inside)
      end
  end.

(** The edges of the vertices [vs] that follow [prev]. *)
Fixpoint edges_after (prev : point) (vs : list point)
  : list (point * point) :=
  match vs with
  | [] => []
  | v :: vs' => (v, prev) :: edges_after v vs'
  end.
End MoreVocabulary.

(** ** The plot of [main.py]

    [max_depth = max(seg[2] for seg in segments) if segments else 1] and the
    argument [depth / (max_depth + 1)] of the colour map. *)

Definition max_depth (segments : list segment_record) : Z :=
  match segments with
  | [] => 1%Z
  | s :: segments' => fold_left (fun m r => Z.max m (snd r)) segments' (snd s)
  end.

Definition colour_argument (segments : list segment_record)
    (record : segment_record) : result float :=
  int_truediv (snd record) (max_depth segments + 1).

(** ** The frames of [main_gif.py]

    The state that [save_frame] leaves after it has been called on each of
    [records] in turn. *)
Definition frames_saved (records : list segment_record) (g : gif_state)
  : gif_state :=
  fold_left
    (fun g r => save_frame (fst (fst r)) (snd (fst r)) (snd r) g) records g.

(** A spec float that is a zero or not a number. *)
Definition zero_or_nan (s : spec_float) : Prop :=
  match s with
  | S754_zero _ | S754_nan => True
  | _ => False
  end.
(** * Properties *)

(** ** The order of binary64 numbers

    [<] and [<=] on floats are read through their specification on
    [spec_float]; numbers that are not NaN are totally preordered. *)

Ltac order_cases :=
  change (Pos.compare_cont Eq) with Pos.compare;
  repeat match goal with
         | |- context [(?a ?= ?b)%Z] =>
             destruct (Z.compare_spec a b); simpl; try congruence; try lia
         | |- context [(?a ?= ?b)%positive] =>
             destruct (Pos.compare_spec a b); simpl; try congruence; try lia
         end.

Lemma SFcompare_swap (x y : spec_float) :
  SFcompare y x = option_map CompOpp (SFcompare x y).
Proof.
  destruct x as [sx|sx| |sx mx ex], y as [sy|sy| |sy my ey]; simpl;
    try reflexivity;
    try (destruct sx); try (destruct sy); simpl; try reflexivity;
    subst; order_cases; subst; order_cases.
Qed.

Lemma SFleb_trans (x y z : spec_float) :
  SFleb x y = true -> SFleb y z = true -> SFleb x z = true.
Proof.
  unfold SFleb.
  destruct x as [sx|sx| |sx mx ex], y as [sy|sy| |sy my ey],
           z as [sz|sz| |sz mz ez]; simpl; try congruence;
    try (destruct sx); try (destruct sy); try (destruct sz);
    simpl; try congruence;
    change (Pos.compare_cont Eq) with Pos.compare;
    try (destruct (Z.compare_spec ex ey); try congruence);
    try (destruct (Z.compare_spec ey ez); try congruence);
    try (destruct (Z.compare_spec ex ez); try congruence);
    subst; try lia; try congruence;
    try (destruct (Pos.compare_spec mx my); simpl; try congruence);
    try (destruct (Pos.compare_spec my mz); simpl; try congruence);
    try (destruct (Pos.compare_spec mx mz); simpl; try congruence);
    subst; try lia; try congruence.
Qed.

Section FloatOrder.
Local Open Scope float_scope.

Lemma ltb_asym (x y : float) : (x <? y) = true -> (y <? x) = false.
Proof.
  rewrite !ltb_spec. unfold SFltb. rewrite (SFcompare_swap (Prim2SF x)).
  destruct (SFcompare (Prim2SF x) (Prim2SF y)) as [[ | | ]|]; simpl;
    congruence.
Qed.

Lemma ltb_irrefl (x : float) : (x <? x) = false.
Proof.
  destruct (x <? x) eqn:E; [|reflexivity].
  now rewrite (ltb_asym _ _ E) in E.
Qed.

Lemma ltb_leb (x y : float) : (x <? y) = true -> (x <=? y) = true.
Proof.
  rewrite ltb_spec, leb_spec. unfold SFltb, SFleb.
  destruct (SFcompare (Prim2SF x) (Prim2SF y)) as [[ | | ]|]; congruence.
Qed.

Lemma leb_trans (x y z : float) :
  (x <=? y) = true -> (y <=? z) = true -> (x <=? z) = true.
Proof. rewrite !leb_spec. apply SFleb_trans. Qed.

Lemma leb_comparable_r (x y : float) : (x <=? y) = true -> comparable y.
Proof.
  rewrite leb_spec. unfold comparable, SFleb. intros H E. rewrite E in H.
  destruct (Prim2SF x); discriminate.
Qed.

Lemma leb_comparable_l (x y : float) : (x <=? y) = true -> comparable x.
Proof.
  rewrite leb_spec. unfold comparable, SFleb. intros H E. rewrite E in H.
  discriminate.
Qed.

Lemma SFcompare_comparable (x y : spec_float) :
  x <> S754_nan -> y <> S754_nan -> exists c, SFcompare x y = Some c.
Proof.
  destruct x, y; simpl; intros; try congruence; eauto.
Qed.

Lemma not_ltb_leb (x y : float) :
  comparable x -> comparable y -> (x <? y) = false -> (y <=? x) = true.
Proof.
  unfold comparable. intros Hx Hy. rewrite ltb_spec, leb_spec.
  unfold SFltb, SFleb. rewrite (SFcompare_swap (Prim2SF x)).
  destruct (SFcompare_comparable _ _ Hx Hy) as [c ->].
  destruct c; simpl; congruence.
Qed.

Lemma leb_refl (x : float) : comparable x -> (x <=? x) = true.
Proof. intro H. apply not_ltb_leb; auto using ltb_irrefl. Qed.

Lemma Prim2SF_zero : Prim2SF 0 = S754_zero false.
Proof. vm_compute. reflexivity. Qed.

Lemma Prim2SF_epsilon :
  Prim2SF 1e-10 = S754_finite false 7737125245533627 (-86).
Proof. vm_compute. reflexivity. Qed.

(** The guard of [line_intersection] excludes a zero divisor. *)
Lemma guarded_denominator_nonzero (denom : float) :
  (abs denom <? 1e-10) = false -> (denom =? 0) = false.
Proof.
  rewrite ltb_spec, eqb_spec, abs_spec, Prim2SF_zero, Prim2SF_epsilon.
  generalize (Prim2SF denom).
  intros [s|s| |s m e]; unfold SFltb, SFeqb, SFabs, SFcompare; intro H;
    try discriminate H; try reflexivity; destruct s; reflexivity.
Qed.
End FloatOrder.

(** ** The sort *)

Section SortingFacts.
Context {A : Type}.
Variable key : A -> float.

Lemma insert_by_In (x z : A) (l : list A) :
  In z (insert_by key x l) <-> z = x \/ In z l.
Proof.
  induction l as [|y r IH]; simpl.
  - intuition.
  - destruct (key x <? key y)%float; simpl; rewrite ?IH; intuition.
Qed.

Lemma insert_by_length (x : A) (l : list A) :
  length (insert_by key x l) = S (length l).
Proof.
  induction l as [|y r IH]; simpl; [reflexivity|].
  destruct (key x <? key y)%float; simpl; now rewrite ?IH.
Qed.

Lemma sort_from_In (l acc : list A) (z : A) :
  In z (fold_left (fun acc x => insert_by key x acc) l acc)
  <-> In z l \/ In z acc.
Proof.
  revert acc. induction l as [|x l IH]; intro acc; simpl.
  - intuition.
  - rewrite IH, insert_by_In. intuition.
Qed.

Lemma sort_by_In (l : list A) (z : A) : In z (sort_by key l) <-> In z l.
Proof. unfold sort_by. rewrite sort_from_In. simpl. intuition. Qed.

Lemma sort_from_length (l acc : list A) :
  length (fold_left (fun acc x => insert_by key x acc) l acc)
  = length l + length acc.
Proof.
  revert acc. induction l as [|x l IH]; intro acc; simpl; [reflexivity|].
  rewrite IH, insert_by_length. lia.
Qed.

Lemma sort_by_length (l : list A) : length (sort_by key l) = length l.
Proof. unfold sort_by. rewrite sort_from_length. simpl. lia. Qed.

Lemma insert_by_ascending (x : A) (l : list A) :
  comparable (key x) -> keys_comparable key l -> ascending key l ->
  ascending key (insert_by key x l).
Proof.
  intros Hx. induction l as [|y r IH]; simpl; intros Hc Hs.
  - split; [constructor | exact I].
  - inversion Hc as [|y' r' Hy Hr]; subst. destruct Hs as [Hlow Hs].
    destruct (key x <? key y)%float eqn:E; simpl.
    + split; [|split; assumption].
      constructor; [now apply ltb_leb|].
      apply Forall_forall. intros z Hz.
      rewrite Forall_forall in Hlow.
      apply (leb_trans _ (key y)); [now apply ltb_leb | now apply Hlow].
    + split; [|now apply IH].
      apply Forall_forall. intros z Hz.
      apply insert_by_In in Hz. destruct Hz as [-> | Hz].
      * now apply not_ltb_leb.
      * rewrite Forall_forall in Hlow. now apply Hlow.
Qed.

Lemma insert_by_comparable (x : A) (l : list A) :
  comparable (key x) -> keys_comparable key l ->
  keys_comparable key (insert_by key x l).
Proof.
  intros Hx Hl. apply Forall_forall. intros z Hz.
  apply insert_by_In in Hz. destruct Hz as [-> | Hz]; [assumption|].
  unfold keys_comparable in Hl. rewrite Forall_forall in Hl. now apply Hl.
Qed.

Lemma sort_from_ascending (l acc : list A) :
  keys_comparable key l -> keys_comparable key acc -> ascending key acc ->
  ascending key (fold_left (fun acc x => insert_by key x acc) l acc).
Proof.
  revert acc. induction l as [|x l IH]; intros acc Hl Hacc Hs; simpl.
  - assumption.
  - inversion Hl; subst.
    apply IH; auto using insert_by_ascending, insert_by_comparable.
Qed.

Lemma sort_by_ascending (l : list A) :
  keys_comparable key l -> ascending key (sort_by key l).
Proof.
  intro Hl. apply sort_from_ascending; [assumption|constructor|exact I].
Qed.

(** In an ascending list the first element is a least one and the last a
    greatest one. *)
Lemma ascending_first (a : A) (r : list A) (z : A) :
  keys_comparable key (a :: r) -> ascending key (a :: r) -> In z (a :: r) ->
  key_le key a z.
Proof.
  intros Hc [Hlow _] [<- | Hz].
  - inversion Hc; subst. now apply leb_refl.
  - rewrite Forall_forall in Hlow. now apply Hlow.
Qed.

Lemma ascending_last (l : list A) (d z : A) :
  keys_comparable key l -> ascending key l -> In z l -> key_le key z (last l d).
Proof.
  induction l as [|a r IH]; intros Hc Hs Hz; [contradiction|].
  inversion Hc as [|a' r' Ha Hr]; subst. destruct Hs as [Hlow Hs].
  destruct r as [|b r].
  - destruct Hz as [<- | []]. now apply leb_refl.
  - change (last (a :: b :: r) d) with (last (b :: r) d).
    destruct Hz as [<- | Hz]; [|now apply IH].
    rewrite Forall_forall in Hlow. apply Hlow.
    destruct (exists_last (l := b :: r)) as [front [e E]]; [discriminate|].
    rewrite E, last_last. apply in_or_app. right. now left.
Qed.
End SortingFacts.

(** ** [point_in_polygon] *)

Section PointInPolygon.
Local Open Scope float_scope.

(** An edge whose two ends lie on the same side of the ray's height does
    not toggle, and nothing is divided. *)
Lemma edge_toggles_same_side (pt vi vj : point) :
  (snd pt <? snd vi) = (snd pt <? snd vj) ->
  edge_toggles pt vi vj = Ok false.
Proof.
  destruct pt as [x y], vi as [xi yi], vj as [xj yj]. simpl. intros ->.
  now rewrite Bool.eqb_reflx.
Qed.

Lemma point_in_polygon_loop_same_side (pt : point) (poly : polygon)
    (b : bool) (range : list nat) (j : nat) (inside : bool) :
  (forall v, In v poly -> (snd pt <? snd v) = b) ->
  (forall i, In i range -> (i < length poly)%nat) ->
  (j < length poly)%nat ->
  point_in_polygon_loop pt poly range j inside = Ok inside.
Proof.
  intros Hside. revert j inside.
  induction range as [|i range IH]; intros j inside Hrange Hj; simpl.
  - reflexivity.
  - assert (Hi : (i < length poly)%nat) by (apply Hrange; now left).
    rewrite edge_toggles_same_side.
    + simpl. apply IH; [|assumption].
      intros k Hk. apply Hrange. now right.
    + rewrite (Hside (nth i poly origin)), (Hside (nth j poly origin));
        auto using nth_In.
Qed.

Lemma point_in_polygon_same_side (pt : point) (poly : polygon) (b : bool) :
  (forall v, In v poly -> (snd pt <? snd v) = b) ->
  point_in_polygon pt poly = Ok false.
Proof.
  intro Hside. unfold point_in_polygon. destruct poly as [|v poly].
  - reflexivity.
  - apply point_in_polygon_loop_same_side with (b := b).
    + assumption.
    + intros i Hi. apply in_seq in Hi. lia.
    + simpl. lia.
Qed.

Lemma point_in_polygon_degenerate (pt : point) (poly : polygon) :
  (length poly < 2)%nat -> point_in_polygon pt poly = Ok false.
Proof.
  intro Hlen. destruct poly as [|v [|w poly]]; simpl in Hlen; try lia.
  - reflexivity.
  - apply point_in_polygon_same_side with (b := snd pt <? snd v).
    intros u [<- | []]. reflexivity.
Qed.
End PointInPolygon.

(** ** The collision oracle *)

Lemma int_truediv_nonzero (i steps : Z) :
  steps <> 0%Z ->
  int_truediv i steps = Ok (float_of_Z i / float_of_Z steps)%float.
Proof.
  intro H. unfold int_truediv.
  destruct (Z.eqb_spec steps 0); [contradiction | reflexivity].
Qed.

Lemma inside_some_degenerate (pt : point) (obstacles : list polygon) :
  Forall (fun poly => (length poly < 2)%nat) obstacles ->
  inside_some pt obstacles = Ok false.
Proof.
  induction 1 as [|poly obstacles Hlen _ IH]; cbn [inside_some].
  - reflexivity.
  - now rewrite (point_in_polygon_degenerate pt poly Hlen).
Qed.

(** With a non-zero [steps], a segment none of whose samples is inside an
    obstacle is reported free. *)
Lemma collision_free_loop_clear (p q : point) (obstacles : list polygon)
    (steps : Z) (range : list nat) :
  steps <> 0%Z ->
  (forall pt, inside_some pt obstacles = Ok false) ->
  collision_free_loop p q obstacles steps range = Ok true.
Proof.
  intros Hsteps Hclear.
  induction range as [|i range IH]; cbn [collision_free_loop].
  - reflexivity.
  - rewrite (int_truediv_nonzero _ _ Hsteps). cbn [rbind].
    now rewrite Hclear.
Qed.

Lemma is_collision_free_poly_degenerate (p q : point)
    (obstacles : list polygon) :
  Forall (fun poly => (length poly < 2)%nat) obstacles ->
  is_collision_free_poly p q obstacles 20 = Ok true.
Proof.
  intro H. unfold is_collision_free_poly.
  apply collision_free_loop_clear; [discriminate|].
  intro pt. now apply inside_some_degenerate.
Qed.

(** [steps = 0]: the first sample divides [0] by [0]. *)
Lemma is_collision_free_poly_zero_steps (p q : point)
    (obstacles : list polygon) :
  is_collision_free_poly p q obstacles 0 = Raise ZeroDivisionError.
Proof. reflexivity. Qed.

(** No obstacle: free, for every [steps] but [0]. *)
Lemma is_collision_free_poly_no_obstacles (p q : point) (steps : Z) :
  steps <> 0%Z -> is_collision_free_poly p q [] steps = Ok true.
Proof.
  intro H. unfold is_collision_free_poly.
  apply collision_free_loop_clear; [assumption | reflexivity].
Qed.

(** ** [polygon_line_intersections] *)

Lemma edge_parameter_in_unit (p q : point) (poly : polygon) (i : nat)
    (t : float) :
  In t (edge_parameter p q poly i) ->
  (0 <=? t)%float = true /\ (t <=? 1)%float = true.
Proof.
  unfold edge_parameter.
  destruct (line_intersection p q _ _) as [[t' u]|]; [|contradiction].
  destruct ((0 <=? t') && (t' <=? 1))%float eqn:Et; cbn [andb];
    [|contradiction].
  destruct ((0 <=? u) && (u <=? 1))%float; [|contradiction].
  intros [<- | []]. now apply andb_true_iff.
Qed.

Lemma polygon_line_intersections_in_unit (p q : point) (poly : polygon)
    (t : float) :
  In t (polygon_line_intersections p q poly) ->
  (0 <=? t)%float = true /\ (t <=? 1)%float = true.
Proof.
  unfold polygon_line_intersections, sorted. rewrite sort_by_In.
  intro H. apply in_flat_map in H. destruct H as [i [_ H]].
  now apply edge_parameter_in_unit in H.
Qed.

(** The list is in ascending order, so that [ts[0]] is a least and [ts[-1]]
    a greatest parameter. *)
Lemma polygon_line_intersections_ascending (p q : point) (poly : polygon) :
  ascending (fun t => t) (polygon_line_intersections p q poly).
Proof.
  unfold polygon_line_intersections, sorted. apply sort_by_ascending.
  apply Forall_forall. intros t H. apply in_flat_map in H.
  destruct H as [i [_ H]]. apply edge_parameter_in_unit in H.
  apply (leb_comparable_r 0%float). tauto.
Qed.

Lemma polygon_line_intersections_comparable (p q : point) (poly : polygon) :
  keys_comparable (fun t => t) (polygon_line_intersections p q poly).
Proof.
  apply Forall_forall. intros t H.
  apply polygon_line_intersections_in_unit in H.
  apply (leb_comparable_r 0%float). tauto.
Qed.

Lemma polygon_line_intersections_bounds (p q : point) (poly : polygon) :
  let ts := polygon_line_intersections p q poly in
  (2 <= length ts)%nat ->
  In (nth 0 ts 0%float) ts /\ In (last ts 0%float) ts /\
  forall t, In t ts ->
    (nth 0 ts 0 <=? t)%float = true /\ (t <=? last ts 0)%float = true.
Proof.
  intros ts Hlen.
  pose proof (polygon_line_intersections_ascending p q poly) as Hasc.
  pose proof (polygon_line_intersections_comparable p q poly) as Hcmp.
  fold ts in Hasc, Hcmp.
  destruct ts as [|a r] eqn:E; [cbn in Hlen; lia|].
  split; [now left|]. split.
  - destruct (exists_last (l := a :: r)) as [front [e Efront]];
      [discriminate|].
    rewrite Efront, last_last. apply in_or_app. right. now left.
  - intros t Ht. split.
    + exact (ascending_first (fun t => t) a r t Hcmp Hasc Ht).
    + exact (ascending_last (fun t => t) (a :: r) 0%float t Hcmp Hasc Ht).
Qed.

(** ** The escape search *)

Section EscapeFacts.
Local Open Scope float_scope.

(** The walk stops at the first candidate outside the polygon. *)
Lemma escape_walk_first_exit (poly : polygon) (sign step : float)
    (perp : point) (k : nat) :
  forall (a n : nat) (c : point),
    (k < n)%nat ->
    point_in_polygon (nth_candidate sign step perp k c) poly = Ok false ->
    (forall i, (i < k)%nat ->
       point_in_polygon (nth_candidate sign step perp i c) poly = Ok true) ->
    escape_walk poly sign step perp (seq a n) c =
    Ok (Some (nth_candidate sign step perp k c, float_of_nat (a + k) * step)).
Proof.
  induction k as [|k IH]; intros a n c Hk Hout Hin;
    destruct n as [|n]; try lia; cbn [seq escape_walk].
  - cbn [nth_candidate] in Hout. rewrite Hout. cbn [rbind negb].
    now rewrite Nat.add_0_r.
  - assert (H0 : point_in_polygon c poly = Ok true)
      by (apply (Hin 0%nat); lia).
    rewrite H0. cbn [rbind negb].
    replace (a + S k)%nat with (S a + k)%nat by lia.
    apply (IH (S a) n (move sign step perp c)).
    + lia.
    + exact Hout.
    + intros i Hi. apply (Hin (S i)). lia.
Qed.

(** It finds nothing when every candidate tested is inside. *)
Lemma escape_walk_no_exit (poly : polygon) (sign step : float)
    (perp : point) (n : nat) :
  forall (a : nat) (c : point),
    (forall i, (i < n)%nat ->
       point_in_polygon (nth_candidate sign step perp i c) poly = Ok true) ->
    escape_walk poly sign step perp (seq a n) c = Ok None.
Proof.
  induction n as [|n IH]; intros a c Hin; cbn [seq escape_walk].
  - reflexivity.
  - assert (H0 : point_in_polygon c poly = Ok true)
      by (apply (Hin 0%nat); lia).
    rewrite H0. cbn [rbind negb].
    apply (IH (S a) (move sign step perp c)).
    intros i Hi. apply (Hin (S i)). lia.
Qed.

Lemma escape_walk_of_first_exit (poly : polygon) (sign step : float)
    (perp : point) (max_iter : nat) (mid : point) (k : nat) :
  first_exit poly sign step perp max_iter mid k ->
  escape_walk poly sign step perp (seq 0 max_iter) mid =
  Ok (Some (nth_candidate sign step perp k mid, float_of_nat k * step)).
Proof.
  intros [Hk [Hout Hin]].
  exact (escape_walk_first_exit poly sign step perp k 0 max_iter mid
           Hk Hout Hin).
Qed.

Lemma escape_walk_of_no_exit (poly : polygon) (sign step : float)
    (perp : point) (max_iter : nat) (mid : point) :
  no_exit poly sign step perp max_iter mid ->
  escape_walk poly sign step perp (seq 0 max_iter) mid = Ok None.
Proof. apply escape_walk_no_exit. Qed.

Lemma displacement_increasing_lt (step : float) (max_iter i j : nat) :
  displacement_increasing step max_iter = true ->
  (i < j)%nat -> (j < max_iter)%nat ->
  (float_of_nat i * step <? float_of_nat j * step) = true.
Proof.
  unfold displacement_increasing. intros H Hij Hj.
  rewrite forallb_forall in H.
  assert (Hj' : In j (seq 0 max_iter)) by (apply in_seq; lia).
  specialize (H j Hj'). rewrite forallb_forall in H.
  apply H. apply in_seq. lia.
Qed.
End EscapeFacts.

(** ** [refine_path] and the state machine of its calls *)

Section RefineFacts.
Variable hypot : float -> float -> float.
Local Open Scope float_scope.

Lemma split_at_unfold {St : Type} (self : point -> point -> M St path)
    (p mid q : point) (s : St) :
  split_at self p mid q s =
  match self p mid s with
  | (Raise e, s1) => (Raise e, s1)
  | (Ok left_path, s1) =>
      match self mid q s1 with
      | (Raise e, s2) => (Raise e, s2)
      | (Ok right_path, s2) => (Ok (removelast left_path ++ right_path), s2)
      end
  end.
Proof.
  unfold split_at, bind, ret.
  destruct (self p mid s) as [[left_path | e] s1]; [|reflexivity].
  destruct (self mid q s1) as [[right_path | e] s2]; reflexivity.
Qed.

(** What a call does once its outcome is known. *)
Lemma fallback_branch_outcome {St : Type} (self : point -> point -> M St path)
    (p q : point) (obstacles : list polygon) (tolerance : float) (s : St) :
  fallback_branch hypot self p q obstacles tolerance s =
  match fallback_outcome hypot p q obstacles tolerance with
  | Accept => (Ok [p; q], s)
  | Terminate mid => (Ok [p; mid; q], s)
  | Split mid => split_at self p mid q s
  | Fails e => (Raise e, s)
  end.
Proof.
  unfold fallback_branch, fallback_outcome, bind, lift, ret.
  destruct (fallback_midpoint hypot p q obstacles _) as [mid | e];
    [|reflexivity].
  destruct (hypot (fst p - fst mid) (snd p - snd mid) <? tolerance);
    reflexivity.
Qed.

Lemma intersection_branch_outcome {St : Type}
    (self : point -> point -> M St path) (p q : point)
    (all_obstacles : list polygon) (tolerance : float)
    (obstacles : list polygon) (s : St) :
  intersection_branch hypot self p q all_obstacles tolerance obstacles s =
  match intersection_outcome hypot p q all_obstacles tolerance obstacles with
  | Accept => (Ok [p; q], s)
  | Terminate mid => (Ok [p; mid; q], s)
  | Split mid => split_at self p mid q s
  | Fails e => (Raise e, s)
  end.
Proof.
  induction obstacles as [|poly obstacles IH]; cbn [intersection_branch
    intersection_outcome].
  - apply fallback_branch_outcome.
  - destruct (2 <=? length (polygon_line_intersections p q poly))%nat;
      [|exact IH].
    unfold bind, lift.
    destruct (adjust_point_out_of_polygon hypot _ p q poly 0.2 20);
      reflexivity.
Qed.

Lemma refine_body_outcome {St : Type} (self : point -> point -> M St path)
    (p q : point) (obstacles : list polygon) (tolerance : float) (s : St) :
  refine_body hypot self p q obstacles tolerance s =
  match call_outcome hypot p q obstacles tolerance with
  | Accept => (Ok [p; q], s)
  | Terminate mid => (Ok [p; mid; q], s)
  | Split mid => split_at self p mid q s
  | Fails e => (Raise e, s)
  end.
Proof.
  unfold refine_body, call_outcome, bind, lift, ret.
  destruct (is_collision_free_poly p q obstacles 20) as [[|] | e];
    try reflexivity.
  apply intersection_branch_outcome.
Qed.

Lemma refine_path_unfold (fuel : nat) (p q : point)
    (obstacles : list polygon) (tolerance : float) (depth : Z)
    (segments : list segment_record) :
  refine_path hypot (S fuel) p q obstacles tolerance depth segments =
  refine_body hypot
    (fun p' q' => refine_path hypot fuel p' q' obstacles tolerance (depth + 1))
    p q obstacles tolerance (segments ++ [(p, q, depth)]).
Proof. reflexivity. Qed.

Lemma gif_refine_path_unfold (fuel : nat) (p q : point)
    (obstacles : list polygon) (tolerance : float) (iteration : Z)
    (g : gif_state) :
  gif_refine_path hypot (S fuel) p q obstacles tolerance iteration g =
  refine_body hypot
    (fun p' q' =>
       gif_refine_path hypot fuel p' q' obstacles tolerance (iteration + 1))
    p q obstacles tolerance (save_frame p q iteration g).
Proof. reflexivity. Qed.

(** [main.py]: the path is the state machine's, and the call leaves
    [segments] extended by the records of its calls. *)
Lemma refine_path_runs (fuel : nat) :
  forall (p q : point) (obstacles : list polygon) (tolerance : float)
         (depth : Z) (segments : list segment_record),
    refine_path hypot fuel p q obstacles tolerance depth segments =
    (path_of hypot fuel p q obstacles tolerance,
     segments ++ calls hypot fuel p q obstacles tolerance depth).
Proof.
  induction fuel as [|fuel IH]; intros p q obstacles tolerance depth segments.
  - cbn. now rewrite app_nil_r.
  - rewrite refine_path_unfold, refine_body_outcome.
    cbn [path_of calls].
    destruct (call_outcome hypot p q obstacles tolerance) as [|mid|mid|e];
      try reflexivity.
    rewrite split_at_unfold, IH.
    destruct (path_of hypot fuel p mid obstacles tolerance) as [left_path|e].
    + rewrite IH.
      destruct (path_of hypot fuel mid q obstacles tolerance);
        now rewrite <- !app_assoc.
    + now rewrite app_nil_r, <- app_assoc.
Qed.

(** [main_gif.py]: the same path. *)
Lemma gif_refine_path_runs (fuel : nat) :
  forall (p q : point) (obstacles : list polygon) (tolerance : float)
         (iteration : Z) (g : gif_state),
    fst (gif_refine_path hypot fuel p q obstacles tolerance iteration g) =
    path_of hypot fuel p q obstacles tolerance.
Proof.
  induction fuel as [|fuel IH]; intros p q obstacles tolerance iteration g.
  - reflexivity.
  - rewrite gif_refine_path_unfold, refine_body_outcome.
    cbn [path_of].
    destruct (call_outcome hypot p q obstacles tolerance) as [|mid|mid|e];
      try reflexivity.
    rewrite split_at_unfold.
    pose proof (IH p mid obstacles tolerance (iteration + 1)%Z
                  (save_frame p q iteration g)) as Hl.
    destruct (gif_refine_path hypot fuel p mid obstacles tolerance
                (iteration + 1) (save_frame p q iteration g))
      as [[left_path | e] g1]; cbn [fst] in Hl; rewrite <- Hl;
      [|reflexivity].
    pose proof (IH mid q obstacles tolerance (iteration + 1)%Z g1) as Hr.
    destruct (gif_refine_path hypot fuel mid q obstacles tolerance
                (iteration + 1) g1)
      as [[right_path | e] g2]; cbn [fst] in Hr; rewrite <- Hr; reflexivity.
Qed.

Lemma path_of_unfold (fuel : nat) (p q : point) (obstacles : list polygon)
    (tolerance : float) :
  path_of hypot (S fuel) p q obstacles tolerance =
  match call_outcome hypot p q obstacles tolerance with
  | Accept => Ok [p; q]
  | Terminate mid => Ok [p; mid; q]
  | Fails e => Raise e
  | Split mid =>
      match path_of hypot fuel p mid obstacles tolerance with
      | Raise e => Raise e
      | Ok left_path =>
          match path_of hypot fuel mid q obstacles tolerance with
          | Raise e => Raise e
          | Ok right_path => Ok (removelast left_path ++ right_path)
          end
      end
  end.
Proof. reflexivity. Qed.

(** A larger recursion budget changes no result but [RecursionError]. *)
Lemma path_of_more_fuel (fuel : nat) :
  forall (p q : point) (obstacles : list polygon) (tolerance : float)
         (r : result path),
    path_of hypot fuel p q obstacles tolerance = r ->
    r <> Raise RecursionError ->
    path_of hypot (S fuel) p q obstacles tolerance = r.
Proof.
  induction fuel as [|fuel IH]; intros p q obstacles tolerance r Hr Hne.
  - cbn in Hr. congruence.
  - rewrite path_of_unfold in Hr. rewrite (path_of_unfold (S fuel)).
    destruct (call_outcome hypot p q obstacles tolerance) as [|mid|mid|e];
      try assumption.
    destruct (path_of hypot fuel p mid obstacles tolerance)
      as [left_path | e] eqn:El.
    + rewrite (IH p mid obstacles tolerance (Ok left_path) El)
        by discriminate.
      destruct (path_of hypot fuel mid q obstacles tolerance)
        as [right_path | e] eqn:Er.
      * rewrite (IH mid q obstacles tolerance (Ok right_path) Er)
          by discriminate.
        assumption.
      * rewrite (IH mid q obstacles tolerance (Raise e) Er) by congruence.
        assumption.
    + rewrite (IH p mid obstacles tolerance (Raise e) El) by congruence.
      assumption.
Qed.

Lemma path_of_fuel_le (fuel fuel' : nat) (p q : point)
    (obstacles : list polygon) (tolerance : float) (pth : path) :
  (fuel <= fuel')%nat ->
  path_of hypot fuel p q obstacles tolerance = Ok pth ->
  path_of hypot fuel' p q obstacles tolerance = Ok pth.
Proof.
  induction 1 as [|fuel' Hle IH]; intro H; [assumption|].
  apply path_of_more_fuel; [now apply IH | discriminate].
Qed.

(** Every returned path runs from [p] to [q]. *)
Lemma path_of_endpoints (fuel : nat) :
  forall (p q : point) (obstacles : list polygon) (tolerance : float)
         (pth : path),
    path_of hypot fuel p q obstacles tolerance = Ok pth ->
    exists mids, pth = p :: mids ++ [q].
Proof.
  induction fuel as [|fuel IH]; intros p q obstacles tolerance pth H.
  - discriminate.
  - cbn [path_of] in H.
    destruct (call_outcome hypot p q obstacles tolerance) as [|mid|mid|e].
    + exists []. now inversion H.
    + destruct (path_of hypot fuel p mid obstacles tolerance)
        as [left_path | e] eqn:El; [|discriminate].
      destruct (path_of hypot fuel mid q obstacles tolerance)
        as [right_path | e] eqn:Er; [|discriminate].
      destruct (IH _ _ _ _ _ El) as [ml ->].
      destruct (IH _ _ _ _ _ Er) as [mr ->].
      change (p :: ml ++ [mid]) with ((p :: ml) ++ [mid]) in H.
      rewrite removelast_last in H. injection H as <-.
      exists (ml ++ mid :: mr). cbn. now rewrite <- app_assoc.
    + exists [mid]. now inversion H.
    + discriminate.
Qed.
(** The first loop of [refine_path] passes over the obstacles that give
    fewer than two parameters and stops at the first that gives two. *)
Lemma intersection_outcome_none (p q : point) (all_obstacles : list polygon)
    (tolerance : float) (obstacles : list polygon) :
  Forall (fun o => (length (polygon_line_intersections p q o) < 2)%nat)
    obstacles ->
  intersection_outcome hypot p q all_obstacles tolerance obstacles =
  fallback_outcome hypot p q all_obstacles tolerance.
Proof.
  induction 1 as [|o obstacles Hlen _ IH]; cbn [intersection_outcome].
  - reflexivity.
  - destruct (Nat.leb_spec 2 (length (polygon_line_intersections p q o)));
      [lia | exact IH].
Qed.

Lemma intersection_outcome_first (p q : point) (all_obstacles : list polygon)
    (tolerance : float) (pre : list polygon) (poly : polygon)
    (post : list polygon) :
  Forall (fun o => (length (polygon_line_intersections p q o) < 2)%nat) pre ->
  (2 <= length (polygon_line_intersections p q poly))%nat ->
  intersection_outcome hypot p q all_obstacles tolerance
    (pre ++ poly :: post) =
  match adjust_point_out_of_polygon hypot
          (interpolate p
             ((nth 0 (polygon_line_intersections p q poly) 0 +
               last (polygon_line_intersections p q poly) 0) / 2) q)
          p q poly 0.2 20 with
  | Ok mid => Split mid
  | Raise e => Fails e
  end.
Proof.
  intros Hpre Hpoly.
  induction Hpre as [|o pre Hlen _ IH]; cbn [app intersection_outcome].
  - destruct (Nat.leb_spec 2 (length (polygon_line_intersections p q poly)));
      [reflexivity | lia].
  - destruct (Nat.leb_spec 2 (length (polygon_line_intersections p q o)));
      [lia | exact IH].
Qed.
End RefineFacts.

(** * The claims *)

(** C1: a path returned by [refine_path], of [main.py] or of
    [main_gif.py], is not empty, starts with the start point [p] and ends
    with the goal point [q], whichever branch returned it. *)
Theorem refine_path_endpoints (hypot : float -> float -> float) (fuel : nat)
    (p q : point) (obstacles : list polygon) (tolerance : float) (depth : Z)
    (segments : list segment_record) (g : gif_state) (pth : path) :
  fst (refine_path hypot fuel p q obstacles tolerance depth segments) = Ok pth
  \/ fst (gif_refine_path hypot fuel p q obstacles tolerance depth g) = Ok pth
  ->
  pth <> [] /\
  nth_error pth 0 = Some p /\
  nth_error pth (length pth - 1) = Some q.
Proof.
  intro H.
  assert (Hp : path_of hypot fuel p q obstacles tolerance = Ok pth).
  { destruct H as [H | H].
    - now rewrite refine_path_runs in H.
    - now rewrite gif_refine_path_runs in H. }
  destruct (path_of_endpoints hypot fuel p q obstacles tolerance pth Hp)
    as [mids ->].
  split; [discriminate|]. split; [reflexivity|].
  cbn [length]. rewrite length_app. cbn [length].
  replace (S (length mids + 1) - 1)%nat with (S (length mids)) by lia.
  cbn [nth_error]. rewrite nth_error_app2 by lia.
  now rewrite Nat.sub_diag.
Qed.

Lemma refine_path_endpoints_witness :
  exists pth,
    fst (refine_path hypot_sqrt 10 (0, 0)%float (10, 10)%float [square]
           0.1%float 0%Z []) = Ok pth /\
    length pth = 3%nat /\
    nth_error pth 0 = Some (0, 0)%float /\
    nth_error pth (length pth - 1) = Some (10, 10)%float.
Proof.
  eexists. split; [vm_compute; reflexivity|].
  split; [reflexivity|].
  apply (refine_path_endpoints hypot_sqrt 10 (0, 0)%float (10, 10)%float
           [square] 0.1%float 0%Z [] no_frames).
  left. vm_compute. reflexivity.
Defined.

(** C7: [refine_path] is deterministic.  Two calls on the same start,
    goal, obstacles and tolerance return the same path, whatever [segments]
    holds, whatever the depth argument and however much recursion is left
    to each. *)
Theorem refine_path_deterministic (hypot : float -> float -> float)
    (fuel1 fuel2 : nat) (p q : point) (obstacles : list polygon)
    (tolerance : float) (depth1 depth2 : Z)
    (segments1 segments2 : list segment_record) (pth1 pth2 : path) :
  fst (refine_path hypot fuel1 p q obstacles tolerance depth1 segments1)
  = Ok pth1 ->
  fst (refine_path hypot fuel2 p q obstacles tolerance depth2 segments2)
  = Ok pth2 ->
  pth1 = pth2.
Proof.
  rewrite !refine_path_runs. cbn [fst]. intros H1 H2.
  apply (path_of_fuel_le hypot fuel1 (Nat.max fuel1 fuel2)) in H1;
    [|apply Nat.le_max_l].
  apply (path_of_fuel_le hypot fuel2 (Nat.max fuel1 fuel2)) in H2;
    [|apply Nat.le_max_r].
  congruence.
Qed.

Lemma refine_path_deterministic_witness :
  exists pth1 pth2,
    fst (refine_path hypot_sqrt 5 (0, 0)%float (10, 10)%float
           [triangle; square] 0.1%float 0%Z []) = Ok pth1 /\
    fst (refine_path hypot_sqrt 40 (0, 0)%float (10, 10)%float
           [triangle; square] 0.1%float 7%Z
           [((1, 1)%float, (2, 2)%float, 3%Z)]) = Ok pth2 /\
    pth1 = pth2.
Proof.
  eexists. eexists.
  split; [vm_compute; reflexivity|].
  split; [vm_compute; reflexivity|].
  apply (refine_path_deterministic hypot_sqrt 5 40 (0, 0)%float
           (10, 10)%float [triangle; square] 0.1%float 0%Z 7%Z []
           [((1, 1)%float, (2, 2)%float, 3%Z)]);
    vm_compute; reflexivity.
Defined.

(** C8: the trace does not bear on the path.  On the same input the
    [refine_path] of [main.py] and the one of [main_gif.py] give the same
    result, and the call of [main.py] leaves [segments] as it was, followed
    by one record [(p, q, depth)] for each call of [refine_path] made, in the
    order the calls are entered. *)
Theorem trace_has_no_effect_on_path (hypot : float -> float -> float)
    (fuel : nat) (p q : point) (obstacles : list polygon) (tolerance : float)
    (depth : Z) (segments : list segment_record) (g : gif_state) :
  fst (refine_path hypot fuel p q obstacles tolerance depth segments) =
  fst (gif_refine_path hypot fuel p q obstacles tolerance depth g) /\
  snd (refine_path hypot fuel p q obstacles tolerance depth segments) =
  segments ++ calls hypot fuel p q obstacles tolerance depth.
Proof.
  rewrite refine_path_runs, gif_refine_path_runs. split; reflexivity.
Qed.

(** C2: in the fallback branch (the sampled check fails and no obstacle
    gives two intersection parameters), when the midpoint [mid], escaped
    or not, is nearer to [p] than [tolerance], the call returns
    [[p, mid, q]] at once: it makes no further call. *)
Theorem fallback_terminates_below_tolerance
    (hypot : float -> float -> float) (fuel : nat) (p q : point)
    (obstacles : list polygon) (tolerance : float) (depth : Z)
    (segments : list segment_record) (mid : point) :
  is_collision_free_poly p q obstacles 20 = Ok false ->
  Forall (fun poly => (length (polygon_line_intersections p q poly) < 2)%nat)
    obstacles ->
  fallback_midpoint hypot p q obstacles
    ((fst p + fst q) / 2, (snd p + snd q) / 2)%float = Ok mid ->
  (hypot (fst p - fst mid) (snd p - snd mid) <? tolerance)%float = true ->
  refine_path hypot (S fuel) p q obstacles tolerance depth segments =
  (Ok [p; mid; q], segments ++ [(p, q, depth)]).
Proof.
  intros Hhit Hfew Hmid Hnear.
  rewrite refine_path_unfold, refine_body_outcome.
  unfold call_outcome. rewrite Hhit.
  rewrite (intersection_outcome_none hypot p q obstacles tolerance obstacles
             Hfew).
  unfold fallback_outcome. now rewrite Hmid, Hnear.
Qed.

Lemma fallback_terminates_below_tolerance_witness :
  is_collision_free_poly (5, 5)%float (5, 8)%float [square] 20 = Ok false /\
  length (polygon_line_intersections (5, 5)%float (5, 8)%float square)
  = 1%nat /\
  refine_path hypot_sqrt 1 (5, 5)%float (5, 8)%float [square] 5%float 0%Z []
  = (Ok [(5, 5); (3.9999999999999991, 6.5); (5, 8)]%float,
     [((5, 5)%float, (5, 8)%float, 0%Z)]).
Proof.
  split; [vm_compute; reflexivity|].
  split; [vm_compute; reflexivity|].
  apply (fallback_terminates_below_tolerance hypot_sqrt 0 (5, 5)%float
           (5, 8)%float [square] 5%float 0%Z []
           (3.9999999999999991, 6.5)%float).
  - vm_compute. reflexivity.
  - constructor; [vm_compute; lia | constructor].
  - vm_compute. reflexivity.
  - vm_compute. reflexivity.
Defined.

(** C3: when the sampled check fails, [refine_path] splits on the first
    obstacle in iteration order that gives at least two intersection
    parameters; obstacles after it are not looked at.  The split parameter
    is [(t_in + t_out) / 2], where [t_in = ts[0]] is a least and
    [t_out = ts[-1]] a greatest element of that obstacle's list [ts]; the
    point there is moved out of that obstacle and the two halves are
    refined. *)
Theorem refine_path_splits_on_first_obstacle
    (hypot : float -> float -> float) (fuel : nat) (p q : point)
    (pre : list polygon) (poly : polygon) (post : list polygon)
    (tolerance : float) (depth : Z) (segments : list segment_record) :
  let obstacles := pre ++ poly :: post in
  let ts := polygon_line_intersections p q poly in
  let t_in := nth 0 ts 0%float in
  let t_out := last ts 0%float in
  is_collision_free_poly p q obstacles 20 = Ok false ->
  Forall (fun o => (length (polygon_line_intersections p q o) < 2)%nat) pre ->
  (2 <= length ts)%nat ->
  (In t_in ts /\ In t_out ts /\
   forall t, In t ts ->
     (t_in <=? t)%float = true /\ (t <=? t_out)%float = true) /\
  refine_path hypot (S fuel) p q obstacles tolerance depth segments =
  match adjust_point_out_of_polygon hypot
          (interpolate p ((t_in + t_out) / 2)%float q) p q poly
          0.2%float 20 with
  | Raise e => (Raise e, segments ++ [(p, q, depth)])
  | Ok mid_adjusted =>
      split_at
        (fun p' q' =>
           refine_path hypot fuel p' q' obstacles tolerance (depth + 1))
        p mid_adjusted q (segments ++ [(p, q, depth)])
  end.
Proof.
  intros obstacles ts t_in t_out Hhit Hpre Hpoly. split.
  - exact (polygon_line_intersections_bounds p q poly Hpoly).
  - rewrite refine_path_unfold, refine_body_outcome.
    unfold call_outcome. rewrite Hhit. subst obstacles.
    rewrite (intersection_outcome_first hypot p q (pre ++ poly :: post)
               tolerance pre poly post Hpre Hpoly).
    fold ts. fold t_in. fold t_out.
    destruct (adjust_point_out_of_polygon hypot _ p q poly 0.2 20);
      reflexivity.
Qed.

Lemma refine_path_splits_on_first_obstacle_witness :
  is_collision_free_poly (0, 0)%float (10, 10)%float
    ([triangle] ++ square :: [far_square]) 20 = Ok false /\
  polygon_line_intersections (0, 0)%float (10, 10)%float triangle = [] /\
  length (polygon_line_intersections (0, 0)%float (10, 10)%float far_square)
  = 2%nat /\
  fst (refine_path hypot_sqrt 3 (0, 0)%float (10, 10)%float
         ([triangle] ++ square :: [far_square]) 0.1%float 0%Z []) =
  fst (split_at
         (fun p' q' =>
            refine_path hypot_sqrt 2 p' q'
              ([triangle] ++ square :: [far_square]) 0.1%float 1%Z)
         (0, 0)%float (3.9443650813895981, 7.0556349186104015)%float
         (10, 10)%float [((0, 0)%float, (10, 10)%float, 0%Z)]).
Proof.
  split; [vm_compute; reflexivity|].
  split; [vm_compute; reflexivity|].
  split; [vm_compute; reflexivity|].
  destruct (refine_path_splits_on_first_obstacle hypot_sqrt 2 (0, 0)%float
              (10, 10)%float [triangle] square [far_square] 0.1%float 0%Z
              [])
    as [_ Hsplit].
  - vm_compute. reflexivity.
  - constructor; [vm_compute; lia | constructor].
  - vm_compute. lia.
  - rewrite Hsplit. vm_compute. reflexivity.
Defined.

(** C6, what the code does: [refine_path] validates nothing.  Obstacles of
    fewer than three vertices are taken as they come; when every obstacle
    has fewer than two, they hold no point, the segment is accepted and the
    call returns [[p, q]]. *)
Theorem refine_path_accepts_degenerate_obstacles
    (hypot : float -> float -> float) (fuel : nat) (p q : point)
    (obstacles : list polygon) (tolerance : float) (depth : Z)
    (segments : list segment_record) :
  Forall (fun poly => (length poly < 2)%nat) obstacles ->
  refine_path hypot (S fuel) p q obstacles tolerance depth segments =
  (Ok [p; q], segments ++ [(p, q, depth)]).
Proof.
  intro Hdeg.
  rewrite refine_path_unfold, refine_body_outcome.
  unfold call_outcome.
  now rewrite (is_collision_free_poly_degenerate p q obstacles Hdeg).
Qed.

Lemma refine_path_accepts_degenerate_obstacles_witness :
  Forall (fun poly => (length poly < 2)%nat) [[]; [(5, 0)%float]] /\
  refine_path hypot_sqrt 1 (0, 0)%float (10, 0)%float [[]; [(5, 0)%float]]
    0.1%float 0%Z [] =
  (Ok [(0, 0); (10, 0)]%float, [((0, 0)%float, (10, 0)%float, 0%Z)]).
Proof.
  assert (H : Forall (fun poly : polygon => (length poly < 2)%nat)
                [[]; [(5, 0)%float]])
    by (repeat constructor).
  split; [exact H|].
  exact (refine_path_accepts_degenerate_obstacles hypot_sqrt 0 (0, 0)%float
           (10, 0)%float [[]; [(5, 0)%float]] 0.1%float 0%Z [] H).
Defined.

(** C6 as stated fails: an obstacle of two vertices raises no error, here
    or anywhere before; the call returns a path. *)
Lemma refine_path_invalid_obstacle_counterexample :
  Exists (fun poly => (length poly < 3)%nat) [[(4, 4); (7, 7)]%float] /\
  refine_path hypot_sqrt 1 (0, 0)%float (10, 0)%float
    [[(4, 4); (7, 7)]%float] 0.1%float 0%Z [] =
  (Ok [(0, 0); (10, 0)]%float, [((0, 0)%float, (10, 0)%float, 0%Z)]).
Proof.
  split; [left; cbn; lia | vm_compute; reflexivity].
Qed.

(** C4: among the candidates (at most two, one for each direction, each the
    first point of its direction that is not inside the polygon within
    [max_iter] tests), [adjust_point_out_of_polygon] returns the one reached
    with the fewest moves, the one of the [+1] direction when both
    directions take the same number of moves, and the only candidate when
    one direction alone leaves the polygon.  The function is called with a
    [step] that is a positive increment: the displacements [i*step] that
    order the candidates grow with [i] over [range(max_iter)], as they do
    for the default [0.2] with [max_iter = 20]
    (see [displacement_increasing_positive_steps]). *)
Theorem adjust_point_out_of_polygon_fewest_moves
    (hypot : float -> float -> float) (mid p q : point) (poly : polygon)
    (step : float) (max_iter : nat) :
  let perp := perpendicular_direction hypot p q in
  let candidate sign k := nth_candidate sign step perp k mid in
  displacement_increasing step max_iter = true ->
  (forall i j,
     first_exit poly 1%float step perp max_iter mid i ->
     first_exit poly (-1)%float step perp max_iter mid j ->
     adjust_point_out_of_polygon hypot mid p q poly step max_iter =
     Ok (if (i <=? j)%nat then candidate 1%float i
         else candidate (-1)%float j)) /\
  (forall i,
     first_exit poly 1%float step perp max_iter mid i ->
     no_exit poly (-1)%float step perp max_iter mid ->
     adjust_point_out_of_polygon hypot mid p q poly step max_iter =
     Ok (candidate 1%float i)) /\
  (forall j,
     no_exit poly 1%float step perp max_iter mid ->
     first_exit poly (-1)%float step perp max_iter mid j ->
     adjust_point_out_of_polygon hypot mid p q poly step max_iter =
     Ok (candidate (-1)%float j)).
Proof.
  intros perp candidate Hinc.
  unfold adjust_point_out_of_polygon. fold perp.
  cbn [escape_candidates]. repeat split.
  - intros i j Hi Hj.
    rewrite (escape_walk_of_first_exit _ _ _ _ _ _ _ Hi). cbn [rbind].
    rewrite (escape_walk_of_first_exit _ _ _ _ _ _ _ Hj). cbn [rbind app].
    unfold sort_by. cbn [fold_left insert_by snd].
    destruct Hi as [Hi _], Hj as [Hj _].
    destruct (Nat.leb_spec i j) as [Hle | Hlt].
    + assert (E : (float_of_nat j * step <? float_of_nat i * step)%float
                  = false).
      { destruct (Nat.eq_dec i j) as [-> | Hne].
        - apply ltb_irrefl.
        - apply ltb_asym.
          apply (displacement_increasing_lt step max_iter i j Hinc); lia. }
      now rewrite E.
    + now rewrite (displacement_increasing_lt step max_iter j i Hinc Hlt Hi).
  - intros i Hi Hj.
    rewrite (escape_walk_of_first_exit _ _ _ _ _ _ _ Hi). cbn [rbind].
    rewrite (escape_walk_of_no_exit _ _ _ _ _ _ Hj). reflexivity.
  - intros j Hi Hj.
    rewrite (escape_walk_of_no_exit _ _ _ _ _ _ Hi). cbn [rbind].
    rewrite (escape_walk_of_first_exit _ _ _ _ _ _ _ Hj). reflexivity.
Qed.

Lemma adjust_point_out_of_polygon_fewest_moves_witness :
  displacement_increasing 0.2%float 20 = true /\
  adjust_point_out_of_polygon hypot_sqrt (5, 6.5)%float (5, 5)%float
    (5, 8)%float square 0.2%float 20 =
  Ok (nth_candidate 1%float 0.2%float
        (perpendicular_direction hypot_sqrt (5, 5)%float (5, 8)%float) 5
        (5, 6.5)%float).
Proof.
  assert (Hinc : displacement_increasing 0.2%float 20 = true)
    by (vm_compute; reflexivity).
  split; [exact Hinc|].
  destruct (adjust_point_out_of_polygon_fewest_moves hypot_sqrt
              (5, 6.5)%float (5, 5)%float (5, 8)%float square 0.2%float 20
              Hinc) as [Hboth _].
  apply (Hboth 5%nat 10%nat).
  - split; [lia|]. split; [vm_compute; reflexivity|].
    intros i Hi.
    do 5 (destruct i as [|i]; [vm_compute; reflexivity|]). lia.
  - split; [lia|]. split; [vm_compute; reflexivity|].
    intros i Hi.
    do 10 (destruct i as [|i]; [vm_compute; reflexivity|]). lia.
Defined.

(** The precondition holds for the default step and for positive steps
    from the smallest float up to [1e300], with the default [max_iter]. *)
Lemma displacement_increasing_positive_steps :
  forallb (fun step => displacement_increasing step 20)
    [5e-324; 1e-10; 0.2; 1; 1e300]%float = true.
Proof. vm_compute. reflexivity. Qed.

(** The precondition is needed.  A negative [step] is no increment: the
    displacements [i*step] then fall as [i] grows, and "minimal
    displacement" no longer means "fewest moves".  Here the [+1] direction
    leaves the square after 10 moves, the [-1] direction after 5, and the
    point returned is the former. *)
Lemma adjust_point_out_of_polygon_needs_growing_displacements :
  first_exit square 1%float (-0.2)%float
    (perpendicular_direction hypot_sqrt (5, 5)%float (5, 8)%float) 20
    (5, 6.5)%float 10 /\
  first_exit square (-1)%float (-0.2)%float
    (perpendicular_direction hypot_sqrt (5, 5)%float (5, 8)%float) 20
    (5, 6.5)%float 5 /\
  adjust_point_out_of_polygon hypot_sqrt (5, 6.5)%float (5, 5)%float
    (5, 8)%float square (-0.2)%float 20 =
  Ok (nth_candidate 1%float (-0.2)%float
        (perpendicular_direction hypot_sqrt (5, 5)%float (5, 8)%float) 10
        (5, 6.5)%float) /\
  adjust_point_out_of_polygon hypot_sqrt (5, 6.5)%float (5, 5)%float
    (5, 8)%float square (-0.2)%float 20 <>
  Ok (nth_candidate (-1)%float (-0.2)%float
        (perpendicular_direction hypot_sqrt (5, 5)%float (5, 8)%float) 5
        (5, 6.5)%float).
Proof.
  repeat split; try lia; try (vm_compute; reflexivity).
  - intros i Hi.
    do 10 (destruct i as [|i]; [vm_compute; reflexivity|]). lia.
  - intros i Hi.
    do 5 (destruct i as [|i]; [vm_compute; reflexivity|]). lia.
  - intro H.
    assert (E := f_equal
                   (fun r => match r with
                             | Ok c => (fst c <? 5)%float
                             | Raise _ => false
                             end) H).
    vm_compute in E. discriminate E.
Qed.

(** C5, the part that holds: a query point whose [y] lies strictly below
    every vertex, or strictly above every vertex, is reported outside, and
    nothing is raised. *)
Theorem point_in_polygon_outside_y_range (pt : point) (poly : polygon) :
  Forall (fun v => (snd pt <? snd v)%float = true) poly \/
  Forall (fun v => (snd v <? snd pt)%float = true) poly ->
  point_in_polygon pt poly = Ok false.
Proof.
  intros [Hbelow | Habove].
  - apply point_in_polygon_same_side with (b := true).
    now apply Forall_forall.
  - apply point_in_polygon_same_side with (b := false).
    intros v Hv. apply ltb_asym. rewrite Forall_forall in Habove.
    now apply Habove.
Qed.

Lemma point_in_polygon_outside_y_range_witness :
  Forall (fun v => (snd v <? 9)%float = true) square /\
  point_in_polygon (5, 9)%float square = Ok false.
Proof.
  assert (H : Forall (fun v : point => (snd v <? snd (5, 9)%float)%float
                                       = true) square)
    by (repeat constructor).
  split; [exact H|].
  apply (point_in_polygon_outside_y_range (5, 9)%float square).
  right. exact H.
Defined.

(** C5 as stated fails for [x]: with the denominator offset by [1e-10],
    the crossing computed for an edge that is almost horizontal falls
    outside the edge.  [x = 1.5] is above every vertex [x] of the first
    triangle, [x = -0.5] below every vertex [x] of the second, both [y] are
    within the polygon's range, and both points are reported inside. *)
Lemma point_in_polygon_outside_x_range_counterexample :
  (forallb (fun v => (fst v <? 1.5)%float)
     [(1, -2e-10); (0, 0); (0, 1)]%float = true /\
   point_in_polygon (1.5, -2e-10)%float [(1, -2e-10); (0, 0); (0, 1)]%float
   = Ok true) /\
  (forallb (fun v => (-0.5 <? fst v)%float)
     [(0, -2e-10); (1, 0); (0.5, 1)]%float = true /\
   point_in_polygon (-0.5, -2e-10)%float [(0, -2e-10); (1, 0); (0.5, 1)]%float
   = Ok true).
Proof. vm_compute. repeat split. Qed.

(** C9, the part that holds: an empty polygon and a polygon of one vertex
    hold no point, and testing them raises nothing; during refinement they
    are as good as absent (see
    [refine_path_accepts_degenerate_obstacles]). *)
Theorem point_in_polygon_fewer_than_two_vertices
    (pt : point) (poly : polygon) :
  (length poly < 2)%nat -> point_in_polygon pt poly = Ok false.
Proof.
  intro Hlen. destruct poly as [|v [|w poly]]; cbn [length] in Hlen.
  - reflexivity.
  - unfold point_in_polygon. cbn [length seq Nat.sub point_in_polygon_loop].
    rewrite edge_toggles_same_side by reflexivity. reflexivity.
  - lia.
Qed.

Lemma point_in_polygon_fewer_than_two_vertices_witness :
  (length [(1, 1)%float] < 2)%nat /\
  point_in_polygon (3, 4)%float [(1, 1)%float] = Ok false.
Proof.
  assert (H : (length [(1, 1)%float] < 2)%nat) by (cbn; lia).
  split; [exact H|].
  exact (point_in_polygon_fewer_than_two_vertices (3, 4)%float
           [(1, 1)%float] H).
Defined.

(** C9 as stated fails for two vertices: the two traversals of the one
    edge use the denominators [d + 1e-10] and [-d + 1e-10], their
    crossings differ, and a point between them is reported inside. *)
Lemma point_in_polygon_two_vertices_counterexample :
  (length [(0, 0); (1e10, 1)]%float < 3)%nat /\
  point_in_polygon (-0.5, 0)%float [(0, 0); (1e10, 1)]%float = Ok true.
Proof. split; [cbn; lia | vm_compute; reflexivity]. Qed.

(** C10, where the code fails: with the default [steps = 20], a triangle
    with an edge that falls by exactly [1e-10] and a start point at the
    height of the edge's lower end make [point_in_polygon] divide by
    [yj - yi + 1e-10 = 0]: the oracle raises [ZeroDivisionError] instead of
    returning a boolean, and so does [refine_path]. *)
Theorem is_collision_free_poly_raises_on_thin_triangle :
  is_collision_free_poly (0, 0)%float (1, 0)%float [thin_triangle] 20
  = Raise ZeroDivisionError /\
  fst (refine_path hypot_sqrt 1000 (0, 0)%float (1, 0)%float [thin_triangle]
         0.1%float 0%Z []) = Raise ZeroDivisionError.
Proof. split; vm_compute; reflexivity. Qed.

(** * Further properties of the code *)

(** ** The guarded divisions *)

(** X1: the divisions of [line_intersection] and
    [perpendicular_direction] never raise: their guards let no zero divisor
    through. *)
Theorem guarded_divisions_never_raise (hypot : float -> float -> float)
    (p q a b : point) :
  line_intersection_written p q a b = Ok (line_intersection p q a b) /\
  perpendicular_direction_written hypot p q =
  Ok (perpendicular_direction hypot p q).
Proof.
  split.
  - destruct p as [x1 y1], q as [x2 y2], a as [x3 y3], b as [x4 y4].
    unfold line_intersection_written, line_intersection.
    cbv beta iota zeta.
    destruct (abs ((x1 - x2) * (y3 - y4) - (y1 - y2) * (x3 - x4)) <? 1e-10)%float
      eqn:E; [reflexivity|].
    unfold truediv. rewrite (guarded_denominator_nonzero _ E). reflexivity.
  - unfold perpendicular_direction_written, perpendicular_direction.
    cbv beta zeta.
    destruct (hypot (fst q - fst p) (snd q - snd p) =? 0)%float eqn:E;
      [reflexivity|].
    unfold truediv. rewrite E. reflexivity.
Qed.

(** ** When nothing is raised *)

Section NoZeroDivision.
Variable hypot : float -> float -> float.
Local Open Scope float_scope.

Lemma edge_toggles_defined (pt vi vj : point) :
  (snd vj - snd vi + 1e-10 =? 0) = false ->
  exists c, edge_toggles pt vi vj = Ok c.
Proof.
  destruct pt as [x y], vi as [xi yi], vj as [xj yj]. cbn [fst snd].
  intro H. unfold edge_toggles.
  destruct (negb (Bool.eqb (y <? yi) (y <? yj))); [|eauto].
  unfold truediv. rewrite H. cbn [rbind]. eauto.
Qed.

Lemma slopes_defined_edge (poly : polygon) (i : nat) :
  slopes_defined poly = true -> (i < length poly)%nat ->
  (snd (nth ((i + length poly - 1) mod length poly) poly origin)
   - snd (nth i poly origin) + 1e-10 =? 0) = false.
Proof.
  unfold slopes_defined. intros H Hi.
  rewrite forallb_forall in H.
  specialize (H i). cbv beta zeta in H.
  apply negb_true_iff. apply H. apply in_seq. lia.
Qed.

Lemma point_in_polygon_loop_defined (pt : point) (poly : polygon) :
  slopes_defined poly = true ->
  forall (k a j : nat) (inside : bool),
    (a + k <= length poly)%nat ->
    ((0 < k)%nat -> j = ((a + length poly - 1) mod length poly)%nat) ->
    exists b, point_in_polygon_loop pt poly (seq a k) j inside = Ok b.
Proof.
  intros Hsafe. induction k as [|k IH]; intros a j inside Ha Hj;
    cbn [seq point_in_polygon_loop].
  - eauto.
  - rewrite Hj by lia.
    destruct (edge_toggles_defined pt (nth a poly origin)
                (nth ((a + length poly - 1) mod length poly) poly origin))
      as [c ->].
    + apply slopes_defined_edge; [assumption | lia].
    + cbn [rbind]. apply IH; [lia|].
      intros _. replace (S a + length poly - 1)%nat
        with (a + 1 * length poly)%nat by lia.
      rewrite Nat.Div0.mod_add. symmetry. apply Nat.mod_small. lia.
Qed.

Lemma point_in_polygon_defined (pt : point) (poly : polygon) :
  slopes_defined poly = true -> exists b, point_in_polygon pt poly = Ok b.
Proof.
  intro Hsafe. unfold point_in_polygon.
  apply point_in_polygon_loop_defined; [assumption | lia |].
  intros _. destruct poly as [|v poly]; [reflexivity|].
  cbn [length]. replace (0 + S (length poly) - 1)%nat with (length poly) by lia.
  rewrite Nat.mod_small by lia. lia.
Qed.

Lemma inside_some_defined (pt : point) (obstacles : list polygon) :
  Forall (fun poly => slopes_defined poly = true) obstacles ->
  exists b, inside_some pt obstacles = Ok b.
Proof.
  induction 1 as [|poly obstacles Hpoly _ IH]; cbn [inside_some].
  - eauto.
  - destruct (point_in_polygon_defined pt poly Hpoly) as [[|] ->];
      cbn [rbind]; eauto.
Qed.

Lemma collision_free_loop_defined (p q : point) (obstacles : list polygon)
    (steps : Z) (range : list nat) :
  steps <> 0%Z ->
  Forall (fun poly => slopes_defined poly = true) obstacles ->
  exists b, collision_free_loop p q obstacles steps range = Ok b.
Proof.
  intros Hsteps Hsafe.
  induction range as [|i range IH]; cbn [collision_free_loop].
  - eauto.
  - rewrite (int_truediv_nonzero _ _ Hsteps). cbn [rbind].
    destruct (inside_some_defined
                (interpolate p (float_of_Z (Z.of_nat i) / float_of_Z steps) q)
                obstacles Hsafe) as [[|] ->]; cbn [rbind]; eauto.
Qed.

Lemma escape_walk_defined (poly : polygon) (sign step : float) (perp : point)
    (range : list nat) :
  slopes_defined poly = true ->
  forall c, exists found, escape_walk poly sign step perp range c = Ok found.
Proof.
  intro Hsafe. induction range as [|i range IH]; intro c;
    cbn [escape_walk].
  - eauto.
  - destruct (point_in_polygon_defined c poly Hsafe) as [[|] ->];
      cbn [rbind negb]; eauto.
Qed.

Lemma escape_candidates_defined (mid : point) (poly : polygon) (step : float)
    (perp : point) (max_iter : nat) (signs : list float) :
  slopes_defined poly = true ->
  forall candidates,
  exists cs,
    escape_candidates mid poly step perp max_iter signs candidates = Ok cs.
Proof.
  intro Hsafe. induction signs as [|sign signs IH]; intro candidates;
    cbn [escape_candidates].
  - eauto.
  - destruct (escape_walk_defined poly sign step perp (seq 0 max_iter) Hsafe
                mid) as [found ->].
    cbn [rbind]. apply IH.
Qed.

Lemma adjust_point_out_of_polygon_defined (mid p q : point) (poly : polygon)
    (step : float) (max_iter : nat) :
  slopes_defined poly = true ->
  exists r, adjust_point_out_of_polygon hypot mid p q poly step max_iter = Ok r.
Proof.
  intro Hsafe. unfold adjust_point_out_of_polygon.
  destruct (escape_candidates_defined mid poly step
              (perpendicular_direction hypot p q) max_iter [1; -1] Hsafe [])
    as [cs ->].
  cbn [rbind]. destruct (sort_by snd cs); eauto.
Qed.

Lemma fallback_midpoint_defined (p q : point) (obstacles : list polygon) :
  Forall (fun poly => slopes_defined poly = true) obstacles ->
  forall mid, exists r, fallback_midpoint hypot p q obstacles mid = Ok r.
Proof.
  induction 1 as [|poly obstacles Hpoly _ IH]; intro mid;
    cbn [fallback_midpoint].
  - eauto.
  - destruct (point_in_polygon_defined mid poly Hpoly) as [[|] ->];
      cbn [rbind]; [|apply IH].
    destruct (adjust_point_out_of_polygon_defined mid p q poly 0.2 20 Hpoly)
      as [r ->].
    cbn [rbind]. apply IH.
Qed.

Lemma intersection_outcome_defined (p q : point)
    (all_obstacles : list polygon) (tolerance : float)
    (obstacles : list polygon) (e : exn) :
  Forall (fun poly => slopes_defined poly = true) all_obstacles ->
  Forall (fun poly => slopes_defined poly = true) obstacles ->
  intersection_outcome hypot p q all_obstacles tolerance obstacles <> Fails e.
Proof.
  intros Hall Hsafe.
  induction Hsafe as [|poly obstacles Hpoly _ IH]; cbn [intersection_outcome].
  - unfold fallback_outcome.
    destruct (fallback_midpoint_defined p q all_obstacles Hall
                ((fst p + fst q) / 2, (snd p + snd q) / 2)) as [r ->].
    destruct (hypot (fst p - fst r) (snd p - snd r) <? tolerance);
      discriminate.
  - destruct (2 <=? length (polygon_line_intersections p q poly))%nat;
      [|exact IH].
    destruct (adjust_point_out_of_polygon_defined
                (interpolate p
                   ((nth 0 (polygon_line_intersections p q poly) 0 +
                     last (polygon_line_intersections p q poly) 0) / 2) q)
                p q poly 0.2 20 Hpoly) as [r ->].
    discriminate.
Qed.

Lemma call_outcome_defined (p q : point) (obstacles : list polygon)
    (tolerance : float) (e : exn) :
  Forall (fun poly => slopes_defined poly = true) obstacles ->
  call_outcome hypot p q obstacles tolerance <> Fails e.
Proof.
  intro Hsafe. unfold call_outcome, is_collision_free_poly.
  destruct (collision_free_loop_defined p q obstacles 20
              (seq 0 (Z.to_nat (20 + 1))) ltac:(discriminate) Hsafe)
    as [[|] ->]; [discriminate|].
  now apply intersection_outcome_defined.
Qed.

Lemma path_of_raises_recursion_only (fuel : nat) :
  forall (p q : point) (obstacles : list polygon) (tolerance : float)
         (e : exn),
    Forall (fun poly => slopes_defined poly = true) obstacles ->
    path_of hypot fuel p q obstacles tolerance = Raise e ->
    e = RecursionError.
Proof.
  induction fuel as [|fuel IH]; intros p q obstacles tolerance e Hsafe H.
  - cbn in H. congruence.
  - rewrite path_of_unfold in H.
    pose proof (call_outcome_defined p q obstacles tolerance) as Hout.
    destruct (call_outcome hypot p q obstacles tolerance) as [|mid|mid|e'];
      try discriminate.
    + destruct (path_of hypot fuel p mid obstacles tolerance)
        as [left_path | e1] eqn:El.
      * destruct (path_of hypot fuel mid q obstacles tolerance)
          as [right_path | e2] eqn:Er; [discriminate|].
        injection H as <-. exact (IH _ _ _ _ _ Hsafe Er).
      * injection H as <-. exact (IH _ _ _ _ _ Hsafe El).
    + exfalso. exact (Hout e' Hsafe eq_refl).
Qed.
End NoZeroDivision.

(** X2: [point_in_polygon] returns a boolean, raising nothing, on every
    polygon none of whose edges makes the slope denominator
    [yj - yi + 1e-10] zero. *)
Theorem point_in_polygon_returns (pt : point) (poly : polygon) :
  slopes_defined poly = true ->
  exists b, point_in_polygon pt poly = Ok b.
Proof.
  intro Hsafe. unfold point_in_polygon.
  apply point_in_polygon_loop_defined; [assumption | lia |].
  intros _. destruct poly as [|v poly]; [reflexivity|].
  cbn [length]. replace (0 + S (length poly) - 1)%nat with (length poly) by lia.
  rewrite Nat.mod_small by lia. lia.
Qed.

Lemma point_in_polygon_returns_witness :
  slopes_defined square = true /\
  exists b, point_in_polygon (5, 5)%float square = Ok b.
Proof.
  assert (H : slopes_defined square = true) by (vm_compute; reflexivity).
  split; [exact H|].
  exact (point_in_polygon_returns (5, 5)%float square H).
Defined.

(** X3: for every [steps] but [0], [is_collision_free_poly] returns a
    boolean on obstacles none of whose edges makes the slope denominator
    zero. *)
Theorem is_collision_free_poly_returns (p q : point)
    (obstacles : list polygon) (steps : Z) :
  steps <> 0%Z ->
  Forall (fun poly => slopes_defined poly = true) obstacles ->
  exists b, is_collision_free_poly p q obstacles steps = Ok b.
Proof.
  intros Hsteps Hsafe. unfold is_collision_free_poly.
  now apply collision_free_loop_defined.
Qed.

Lemma is_collision_free_poly_returns_witness :
  20%Z <> 0%Z /\
  Forall (fun poly => slopes_defined poly = true) [triangle; square] /\
  exists b,
    is_collision_free_poly (0, 0)%float (10, 10)%float [triangle; square] 20
    = Ok b.
Proof.
  assert (Hs : 20%Z <> 0%Z) by discriminate.
  assert (H : Forall (fun poly => slopes_defined poly = true)
                [triangle; square])
    by (repeat constructor).
  split; [exact Hs|]. split; [exact H|].
  exact (is_collision_free_poly_returns (0, 0)%float (10, 10)%float
           [triangle; square] 20 Hs H).
Defined.

(** X4: on such a polygon [adjust_point_out_of_polygon] returns a point,
    for every [step] and [max_iter]. *)
Theorem adjust_point_out_of_polygon_returns
    (hypot : float -> float -> float) (mid p q : point) (poly : polygon)
    (step : float) (max_iter : nat) :
  slopes_defined poly = true ->
  exists r, adjust_point_out_of_polygon hypot mid p q poly step max_iter = Ok r.
Proof.
  intro Hsafe. unfold adjust_point_out_of_polygon.
  destruct (escape_candidates_defined mid poly step
              (perpendicular_direction hypot p q) max_iter [1; -1]%float
              Hsafe []) as [cs ->].
  cbn [rbind]. destruct (sort_by snd cs); eauto.
Qed.

Lemma adjust_point_out_of_polygon_returns_witness :
  slopes_defined square = true /\
  exists r,
    adjust_point_out_of_polygon hypot_sqrt (5, 6.5)%float (5, 5)%float
      (5, 8)%float square 0.2%float 20 = Ok r.
Proof.
  assert (H : slopes_defined square = true) by (vm_compute; reflexivity).
  split; [exact H|].
  exact (adjust_point_out_of_polygon_returns hypot_sqrt (5, 6.5)%float
           (5, 5)%float (5, 8)%float square 0.2%float 20 H).
Defined.

(** X5: on obstacles none of whose edges makes the slope denominator zero,
    [refine_path], of either file, never raises [ZeroDivisionError]: it
    returns a path or exhausts the recursion limit. *)
Theorem refine_path_raises_only_recursion_error
    (hypot : float -> float -> float) (fuel : nat) (p q : point)
    (obstacles : list polygon) (tolerance : float) (depth : Z)
    (segments : list segment_record) (g : gif_state) (e : exn) :
  Forall (fun poly => slopes_defined poly = true) obstacles ->
  fst (refine_path hypot fuel p q obstacles tolerance depth segments) = Raise e
  \/ fst (gif_refine_path hypot fuel p q obstacles tolerance depth g) = Raise e
  ->
  e = RecursionError.
Proof.
  intros Hsafe H.
  apply (path_of_raises_recursion_only hypot fuel p q obstacles tolerance e
           Hsafe).
  destruct H as [H | H].
  - now rewrite refine_path_runs in H.
  - now rewrite gif_refine_path_runs in H.
Qed.

Lemma refine_path_raises_only_recursion_error_witness :
  Forall (fun poly => slopes_defined poly = true) [triangle; square] /\
  fst (refine_path hypot_sqrt 1 (0, 0)%float (10, 10)%float
         [triangle; square] 0.1%float 0%Z []) = Raise RecursionError.
Proof.
  assert (H : Forall (fun poly => slopes_defined poly = true)
                [triangle; square])
    by (repeat constructor).
  split; [exact H|].
  destruct (fst (refine_path hypot_sqrt 1 (0, 0)%float (10, 10)%float
                   [triangle; square] 0.1%float 0%Z [])) as [pth | e] eqn:E.
  - vm_compute in E. discriminate E.
  - f_equal.
    apply (refine_path_raises_only_recursion_error hypot_sqrt 1
             (0, 0)%float (10, 10)%float [triangle; square] 0.1%float 0%Z []
             no_frames e H).
    left. exact E.
Defined.

(** ** What the oracle's answer means *)

Section OracleMeaning.
Local Open Scope float_scope.

Lemma inside_some_false (pt : point) (obstacles : list polygon) :
  inside_some pt obstacles = Ok false ->
  forall poly, In poly obstacles -> point_in_polygon pt poly = Ok false.
Proof.
  induction obstacles as [|o obstacles IH]; cbn [inside_some];
    intros H poly Hin; [contradiction|].
  destruct (point_in_polygon pt o) as [[|] | e] eqn:E; cbn [rbind] in H;
    try discriminate.
  destruct Hin as [<- | Hin]; [exact E | now apply IH].
Qed.

Lemma inside_some_true (pt : point) (obstacles : list polygon) :
  inside_some pt obstacles = Ok true ->
  exists poly, In poly obstacles /\ point_in_polygon pt poly = Ok true.
Proof.
  induction obstacles as [|o obstacles IH]; cbn [inside_some]; intro H;
    [discriminate|].
  destruct (point_in_polygon pt o) as [[|] | e] eqn:E; cbn [rbind] in H;
    try discriminate.
  - exists o. split; [now left | exact E].
  - destruct (IH H) as [poly [Hin Hpoly]]. exists poly.
    split; [now right | exact Hpoly].
Qed.

Lemma collision_free_loop_true (p q : point) (obstacles : list polygon)
    (steps : Z) (range : list nat) :
  collision_free_loop p q obstacles steps range = Ok true ->
  forall i poly, In i range -> In poly obstacles ->
    point_in_polygon (sample p q steps i) poly = Ok false.
Proof.
  induction range as [|k range IH]; cbn [collision_free_loop];
    intros H i poly Hi Hpoly; [contradiction|].
  unfold int_truediv in H.
  destruct (steps =? 0)%Z; [discriminate|]. cbn [rbind] in H.
  fold (sample p q steps k) in H.
  destruct (inside_some (sample p q steps k) obstacles) as [[|] | e] eqn:E;
    cbn [rbind] in H; try discriminate.
  destruct Hi as [<- | Hi].
  - exact (inside_some_false _ _ E poly Hpoly).
  - now apply IH.
Qed.

Lemma collision_free_loop_false (p q : point) (obstacles : list polygon)
    (steps : Z) (range : list nat) :
  collision_free_loop p q obstacles steps range = Ok false ->
  exists i poly, In i range /\ In poly obstacles /\
    point_in_polygon (sample p q steps i) poly = Ok true.
Proof.
  induction range as [|k range IH]; cbn [collision_free_loop]; intro H;
    [discriminate|].
  unfold int_truediv in H.
  destruct (steps =? 0)%Z; [discriminate|]. cbn [rbind] in H.
  fold (sample p q steps k) in H.
  destruct (inside_some (sample p q steps k) obstacles) as [[|] | e] eqn:E;
    cbn [rbind] in H; try discriminate.
  - destruct (inside_some_true _ _ E) as [poly [Hin Hpoly]].
    exists k, poly. split; [now left | now split].
  - destruct (IH H) as [i [poly [Hi [Hin Hpoly]]]].
    exists i, poly. split; [now right | now split].
Qed.
End OracleMeaning.

(** X6: what the answer of [is_collision_free_poly] means.  [True]: each
    of the [steps + 1] samples, the two ends included, is outside every
    obstacle.  [False]: some sample is inside some obstacle. *)
Theorem is_collision_free_poly_meaning (p q : point)
    (obstacles : list polygon) (steps : Z) :
  (is_collision_free_poly p q obstacles steps = Ok true ->
   forall i poly, (Z.of_nat i <= steps)%Z -> In poly obstacles ->
     point_in_polygon (sample p q steps i) poly = Ok false) /\
  (is_collision_free_poly p q obstacles steps = Ok false ->
   exists i poly, (Z.of_nat i <= steps)%Z /\ In poly obstacles /\
     point_in_polygon (sample p q steps i) poly = Ok true).
Proof.
  unfold is_collision_free_poly. split.
  - intros H i poly Hi Hpoly.
    apply (collision_free_loop_true p q obstacles steps _ H i poly);
      [|assumption].
    apply in_seq. lia.
  - intro H.
    destruct (collision_free_loop_false p q obstacles steps _ H)
      as [i [poly [Hi [Hin Hpoly]]]].
    exists i, poly. apply in_seq in Hi. repeat split; try assumption. lia.
Qed.

(** X7: the cases in which [is_collision_free_poly] tests nothing.  With a
    negative [steps] no sample is taken and the segment is reported free
    whatever the obstacles; with no obstacle it is reported free for every
    [steps] but [0]. *)
Theorem is_collision_free_poly_without_test (p q : point)
    (obstacles : list polygon) (steps : Z) :
  ((steps < 0)%Z -> is_collision_free_poly p q obstacles steps = Ok true) /\
  (steps <> 0%Z -> is_collision_free_poly p q [] steps = Ok true).
Proof.
  unfold is_collision_free_poly. split.
  - intro H. replace (Z.to_nat (steps + 1)) with 0%nat by lia. reflexivity.
  - intro H. apply collision_free_loop_clear; [assumption | reflexivity].
Qed.

(** ** What the escape search returns *)

Section EscapeMeaning.
Local Open Scope float_scope.

Lemma escape_walk_found (poly : polygon) (sign step : float) (perp : point)
    (n : nat) :
  forall (a : nat) (c r : point) (d : float),
    escape_walk poly sign step perp (seq a n) c = Ok (Some (r, d)) ->
    exists k,
      (k < n)%nat /\ r = nth_candidate sign step perp k c /\
      point_in_polygon r poly = Ok false /\
      forall i, (i < k)%nat ->
        point_in_polygon (nth_candidate sign step perp i c) poly = Ok true.
Proof.
  induction n as [|n IH]; intros a c r d H; cbn [seq escape_walk] in H;
    [discriminate|].
  destruct (point_in_polygon c poly) as [[|] | e] eqn:E; cbn [rbind negb] in H;
    try discriminate.
  - destruct (IH (S a) (move sign step perp c) r d H)
      as [k [Hk [Hr [Hout Hin]]]].
    exists (S k). split; [lia|]. split; [exact Hr|]. split; [exact Hout|].
    intros [|i] Hi; [exact E | apply Hin; lia].
  - injection H as <- _. exists 0%nat.
    split; [lia|]. split; [reflexivity|]. split; [exact E|].
    intros i Hi. lia.
Qed.

Lemma escape_walk_nothing (poly : polygon) (sign step : float) (perp : point)
    (n : nat) :
  forall (a : nat) (c : point),
    escape_walk poly sign step perp (seq a n) c = Ok None ->
    forall i, (i < n)%nat ->
      point_in_polygon (nth_candidate sign step perp i c) poly = Ok true.
Proof.
  induction n as [|n IH]; intros a c H i Hi; [lia|].
  cbn [seq escape_walk] in H.
  destruct (point_in_polygon c poly) as [[|] | e] eqn:E; cbn [rbind negb] in H;
    try discriminate.
  destruct i as [|i]; [exact E|].
  apply (IH (S a) (move sign step perp c) H). lia.
Qed.

Lemma sort_by_two_head {A : Type} (key : A -> float) (c1 c2 c : A)
    (rest : list A) :
  sort_by key [c1; c2] = c :: rest -> c = c1 \/ c = c2.
Proof.
  unfold sort_by. cbn [fold_left insert_by].
  destruct (key c2 <? key c1); intro H; injection H as <- _; auto.
Qed.
End EscapeMeaning.

(** X8: the point that [adjust_point_out_of_polygon] returns is either the
    first candidate outside the polygon along one of the two directions
    ([sign] is [1] or [-1]; it is reached in fewer than [max_iter] moves and
    every candidate before it is inside), or [mid] itself, when neither
    direction leaves the polygon within [max_iter] tests. *)
Theorem adjust_point_out_of_polygon_result
    (hypot : float -> float -> float) (mid p q : point) (poly : polygon)
    (step : float) (max_iter : nat) (r : point) :
  adjust_point_out_of_polygon hypot mid p q poly step max_iter = Ok r ->
  let perp := perpendicular_direction hypot p q in
  (exists sign k,
     (sign = 1%float \/ sign = (-1)%float) /\
     first_exit poly sign step perp max_iter mid k /\
     r = nth_candidate sign step perp k mid) \/
  (no_exit poly 1%float step perp max_iter mid /\
   no_exit poly (-1)%float step perp max_iter mid /\
   r = mid).
Proof.
  intros H perp. unfold adjust_point_out_of_polygon in H. fold perp in H.
  cbn [escape_candidates] in H.
  destruct (escape_walk poly 1 step perp (seq 0 max_iter) mid)
    as [found1 | e] eqn:E1; cbn [rbind] in H; [|discriminate].
  destruct (escape_walk poly (-1) step perp (seq 0 max_iter) mid)
    as [found2 | e] eqn:E2; cbn [rbind] in H; [|discriminate].
  assert (Hfrom : forall sign c d,
             escape_walk poly sign step perp (seq 0 max_iter) mid
             = Ok (Some (c, d)) ->
             exists k, first_exit poly sign step perp max_iter mid k /\
                       c = nth_candidate sign step perp k mid).
  { intros sign c d Hw.
    destruct (escape_walk_found poly sign step perp max_iter 0 mid c d Hw)
      as [k [Hk [Hc [Hout Hin]]]].
    exists k. split; [|exact Hc]. subst c. now repeat split. }
  destruct found1 as [[c1 d1]|], found2 as [[c2 d2]|]; cbn [app] in H.
  - left. destruct (sort_by snd [(c1, d1); (c2, d2)]) as [|c rest] eqn:Es.
    { apply (f_equal (@length _)) in Es. rewrite sort_by_length in Es.
      discriminate Es. }
    injection H as <-.
    destruct (sort_by_two_head snd _ _ _ _ Es) as [-> | ->]; cbn [fst].
    + destruct (Hfrom _ _ _ E1) as [k [Hk Hc]]. exists 1%float, k. auto.
    + destruct (Hfrom _ _ _ E2) as [k [Hk Hc]]. exists (-1)%float, k. auto.
  - left. unfold sort_by in H. cbn [fold_left insert_by fst] in H.
    injection H as <-.
    destruct (Hfrom _ _ _ E1) as [k [Hk Hc]]. exists 1%float, k. auto.
  - left. unfold sort_by in H. cbn [fold_left insert_by fst] in H.
    injection H as <-.
    destruct (Hfrom _ _ _ E2) as [k [Hk Hc]]. exists (-1)%float, k. auto.
  - right. unfold sort_by in H. cbn [fold_left] in H. injection H as <-.
    split; [|split; [|reflexivity]].
    + exact (escape_walk_nothing poly 1 step perp max_iter 0 mid E1).
    + exact (escape_walk_nothing poly (-1) step perp max_iter 0 mid E2).
Qed.

Lemma adjust_point_out_of_polygon_result_witness :
  adjust_point_out_of_polygon hypot_sqrt (5, 6.5)%float (5, 5)%float
    (5, 8)%float square 0.2%float 20 = Ok (3.9999999999999991, 6.5)%float /\
  ((exists sign k,
      (sign = 1%float \/ sign = (-1)%float) /\
      first_exit square sign 0.2%float
        (perpendicular_direction hypot_sqrt (5, 5)%float (5, 8)%float) 20
        (5, 6.5)%float k /\
      (3.9999999999999991, 6.5)%float =
      nth_candidate sign 0.2%float
        (perpendicular_direction hypot_sqrt (5, 5)%float (5, 8)%float) k
        (5, 6.5)%float) \/
   (no_exit square 1%float 0.2%float
      (perpendicular_direction hypot_sqrt (5, 5)%float (5, 8)%float) 20
      (5, 6.5)%float /\
    no_exit square (-1)%float 0.2%float
      (perpendicular_direction hypot_sqrt (5, 5)%float (5, 8)%float) 20
      (5, 6.5)%float /\
    (3.9999999999999991, 6.5)%float = (5, 6.5)%float)).
Proof.
  assert (H : adjust_point_out_of_polygon hypot_sqrt (5, 6.5)%float
                (5, 5)%float (5, 8)%float square 0.2%float 20
              = Ok (3.9999999999999991, 6.5)%float)
    by (vm_compute; reflexivity).
  split; [exact H|].
  exact (adjust_point_out_of_polygon_result hypot_sqrt (5, 6.5)%float
           (5, 5)%float (5, 8)%float square 0.2%float 20
           (3.9999999999999991, 6.5)%float H).
Defined.

(** X9: a midpoint that is not inside the polygon is returned as it is, for
    every [step] and every [max_iter] but [0]: both directions stop at once
    with the displacement [0*step], and the tie keeps the first. *)
Theorem adjust_point_out_of_polygon_already_outside
    (hypot : float -> float -> float) (mid p q : point) (poly : polygon)
    (step : float) (max_iter : nat) :
  point_in_polygon mid poly = Ok false ->
  (0 < max_iter)%nat ->
  adjust_point_out_of_polygon hypot mid p q poly step max_iter = Ok mid.
Proof.
  intros Hout Hiter. unfold adjust_point_out_of_polygon.
  cbn [escape_candidates].
  assert (Hexit : forall sign,
             first_exit poly sign step (perpendicular_direction hypot p q)
               max_iter mid 0).
  { intro sign. split; [exact Hiter|]. split; [exact Hout|].
    intros i Hi. lia. }
  rewrite (escape_walk_of_first_exit _ _ _ _ _ _ _ (Hexit 1%float)).
  cbn [rbind].
  rewrite (escape_walk_of_first_exit _ _ _ _ _ _ _ (Hexit (-1)%float)).
  cbn [rbind app nth_candidate]. unfold sort_by.
  cbn [fold_left insert_by snd]. now rewrite ltb_irrefl.
Qed.

Lemma adjust_point_out_of_polygon_already_outside_witness :
  point_in_polygon (5, 9)%float square = Ok false /\
  adjust_point_out_of_polygon hypot_sqrt (5, 9)%float (0, 0)%float
    (10, 10)%float square (-3)%float 1 = Ok (5, 9)%float.
Proof.
  assert (H : point_in_polygon (5, 9)%float square = Ok false)
    by (vm_compute; reflexivity).
  split; [exact H|].
  apply (adjust_point_out_of_polygon_already_outside hypot_sqrt (5, 9)%float
           (0, 0)%float (10, 10)%float square (-3)%float 1 H).
  lia.
Defined.

(** X10: when neither direction leaves the polygon within [max_iter]
    tests, the escape fails and [mid] is returned unchanged; nothing is
    raised. *)
Theorem adjust_point_out_of_polygon_escape_fails
    (hypot : float -> float -> float) (mid p q : point) (poly : polygon)
    (step : float) (max_iter : nat) :
  let perp := perpendicular_direction hypot p q in
  no_exit poly 1%float step perp max_iter mid ->
  no_exit poly (-1)%float step perp max_iter mid ->
  adjust_point_out_of_polygon hypot mid p q poly step max_iter = Ok mid.
Proof.
  intros perp H1 H2. unfold adjust_point_out_of_polygon. fold perp.
  cbn [escape_candidates].
  rewrite (escape_walk_of_no_exit _ _ _ _ _ _ H1). cbn [rbind].
  rewrite (escape_walk_of_no_exit _ _ _ _ _ _ H2). reflexivity.
Qed.

Lemma adjust_point_out_of_polygon_escape_fails_witness :
  adjust_point_out_of_polygon hypot_sqrt (50, 50)%float (50, 0)%float
    (50, 100)%float wide_square 0.2%float 20 = Ok (50, 50)%float.
Proof.
  apply (adjust_point_out_of_polygon_escape_fails hypot_sqrt (50, 50)%float
           (50, 0)%float (50, 100)%float wide_square 0.2%float 20).
  - intros i Hi.
    do 20 (destruct i as [|i]; [vm_compute; reflexivity|]). lia.
  - intros i Hi.
    do 20 (destruct i as [|i]; [vm_compute; reflexivity|]). lia.
Defined.

(** ** The frames that [main_gif.py] writes *)

Section Frames.
Variable hypot : float -> float -> float.

Lemma frames_saved_cons (r : segment_record) (records : list segment_record)
    (g : gif_state) :
  frames_saved (r :: records) g =
  frames_saved records (save_frame (fst (fst r)) (snd (fst r)) (snd r) g).
Proof. reflexivity. Qed.

Lemma frames_saved_app (records records' : list segment_record)
    (g : gif_state) :
  frames_saved (records ++ records') g =
  frames_saved records' (frames_saved records g).
Proof. unfold frames_saved. apply fold_left_app. Qed.

Lemma gif_refine_path_state (fuel : nat) :
  forall (p q : point) (obstacles : list polygon) (tolerance : float)
         (iteration : Z) (g : gif_state),
    gif_refine_path hypot fuel p q obstacles tolerance iteration g =
    (path_of hypot fuel p q obstacles tolerance,
     frames_saved (calls hypot fuel p q obstacles tolerance iteration) g).
Proof.
  induction fuel as [|fuel IH]; intros p q obstacles tolerance iteration g.
  - reflexivity.
  - rewrite gif_refine_path_unfold, refine_body_outcome.
    cbn [path_of calls]. rewrite frames_saved_cons. cbn [fst snd].
    destruct (call_outcome hypot p q obstacles tolerance) as [|mid|mid|e];
      try reflexivity.
    rewrite split_at_unfold, IH, frames_saved_app.
    destruct (path_of hypot fuel p mid obstacles tolerance) as [left_path|e].
    + rewrite IH.
      destruct (path_of hypot fuel mid q obstacles tolerance); reflexivity.
    + reflexivity.
Qed.

Lemma frames_saved_numbers (records : list segment_record) :
  forall g,
    frames_saved records g =
    {| frame_counter := frame_counter g + length records;
       frames := frames g ++
                 combine (seq (frame_counter g) (length records)) records |}.
Proof.
  unfold frames_saved.
  induction records as [|[[a b] d] records IH]; intro g;
    cbn [fold_left length seq combine fst snd].
  - rewrite Nat.add_0_r, app_nil_r. now destruct g.
  - rewrite IH. unfold save_frame. cbn [frame_counter frames].
    f_equal; [lia|]. now rewrite <- app_assoc.
Qed.
End Frames.

(** X11: [main_gif.py] writes exactly one frame for each call of
    [refine_path] made, in the order the calls are entered: the frames show
    the same segments and iterations as the records that [main.py] appends,
    they bear consecutive numbers from the counter up, and the counter ends
    raised by the number of calls. *)
Theorem gif_refine_path_writes_one_frame_per_call
    (hypot : float -> float -> float) (fuel : nat) (p q : point)
    (obstacles : list polygon) (tolerance : float) (iteration : Z)
    (g : gif_state) :
  let records := calls hypot fuel p q obstacles tolerance iteration in
  let g' :=
    snd (gif_refine_path hypot fuel p q obstacles tolerance iteration g) in
  snd (refine_path hypot fuel p q obstacles tolerance iteration []) = records
  /\ frame_counter g' = (frame_counter g + length records)%nat
  /\ frames g' =
     frames g ++ combine (seq (frame_counter g) (length records)) records.
Proof.
  intros records g'. subst g'.
  rewrite gif_refine_path_state, frames_saved_numbers, refine_path_runs.
  repeat split.
Qed.

(** ** The fallback branch *)

(** X12: in the fallback branch, when the midpoint [mid], escaped or not,
    is not nearer to [p] than [tolerance], the call recurses on [(p, mid)]
    and [(mid, q)] and joins the two paths, the junction kept once. *)
Theorem fallback_recurses_at_or_above_tolerance
    (hypot : float -> float -> float) (fuel : nat) (p q : point)
    (obstacles : list polygon) (tolerance : float) (depth : Z)
    (segments : list segment_record) (mid : point) :
  is_collision_free_poly p q obstacles 20 = Ok false ->
  Forall (fun poly => (length (polygon_line_intersections p q poly) < 2)%nat)
    obstacles ->
  fallback_midpoint hypot p q obstacles
    ((fst p + fst q) / 2, (snd p + snd q) / 2)%float = Ok mid ->
  (hypot (fst p - fst mid) (snd p - snd mid) <? tolerance)%float = false ->
  refine_path hypot (S fuel) p q obstacles tolerance depth segments =
  split_at
    (fun p' q' => refine_path hypot fuel p' q' obstacles tolerance (depth + 1))
    p mid q (segments ++ [(p, q, depth)]).
Proof.
  intros Hhit Hfew Hmid Hfar.
  rewrite refine_path_unfold, refine_body_outcome.
  unfold call_outcome. rewrite Hhit.
  rewrite (intersection_outcome_none hypot p q obstacles tolerance obstacles
             Hfew).
  unfold fallback_outcome. now rewrite Hmid, Hfar.
Qed.

Lemma fallback_recurses_at_or_above_tolerance_witness :
  is_collision_free_poly (5, 5)%float (5, 8)%float [square] 20 = Ok false /\
  fst (refine_path hypot_sqrt 3 (5, 5)%float (5, 8)%float [square]
         0.1%float 0%Z []) =
  fst (split_at
         (fun p' q' =>
            refine_path hypot_sqrt 2 p' q' [square] 0.1%float 1%Z)
         (5, 5)%float (3.9999999999999991, 6.5)%float (5, 8)%float
         [((5, 5)%float, (5, 8)%float, 0%Z)]).
Proof.
  split; [vm_compute; reflexivity|].
  rewrite (fallback_recurses_at_or_above_tolerance hypot_sqrt 2 (5, 5)%float
             (5, 8)%float [square] 0.1%float 0%Z []
             (3.9999999999999991, 6.5)%float).
  - reflexivity.
  - vm_compute. reflexivity.
  - constructor; [vm_compute; lia | constructor].
  - vm_compute. reflexivity.
  - vm_compute. reflexivity.
Defined.

(** X13: the loop that moves the fallback midpoint leaves a midpoint that
    lies in no obstacle where it is: the split point is then the arithmetic
    midpoint itself, and nothing is raised. *)
Theorem fallback_midpoint_unmoved_outside_obstacles
    (hypot : float -> float -> float) (p q : point)
    (obstacles : list polygon) (mid : point) :
  Forall (fun poly => point_in_polygon mid poly = Ok false) obstacles ->
  fallback_midpoint hypot p q obstacles mid = Ok mid.
Proof.
  induction 1 as [|poly obstacles Hout _ IH]; cbn [fallback_midpoint].
  - reflexivity.
  - rewrite Hout. cbn [rbind]. exact IH.
Qed.

Lemma fallback_midpoint_unmoved_outside_obstacles_witness :
  Forall (fun poly => point_in_polygon (5, 9)%float poly = Ok false)
    [triangle; square] /\
  fallback_midpoint hypot_sqrt (0, 9)%float (10, 9)%float [triangle; square]
    (5, 9)%float = Ok (5, 9)%float.
Proof.
  assert (H : Forall (fun poly => point_in_polygon (5, 9)%float poly
                                  = Ok false) [triangle; square])
    by (repeat constructor).
  split; [exact H|].
  exact (fallback_midpoint_unmoved_outside_obstacles hypot_sqrt (0, 9)%float
           (10, 9)%float [triangle; square] (5, 9)%float H).
Defined.

(** ** The vertex ring of [point_in_polygon] *)

Section Ring.
Local Open Scope float_scope.

Lemma skipn_head (A : Type) (d v : A) (r : list A) :
  forall (a : nat) (l : list A),
    skipn a l = v :: r -> nth a l d = v /\ skipn (S a) l = r.
Proof.
  induction a as [|a IH]; intros l H.
  - cbn in H. subst l. split; reflexivity.
  - destruct l as [|x l]; [cbn in H; discriminate H|].
    cbn [skipn nth] in H |- *. exact (IH l H).
Qed.

Lemma point_in_polygon_loop_ring (pt : point) (poly : polygon)
    (vs : list point) :
  forall (a j : nat) (inside : bool),
    skipn a poly = vs ->
    point_in_polygon_loop pt poly (seq a (length vs)) j inside =
    ring_loop pt (nth j poly origin) vs inside.
Proof.
  induction vs as [|v vs IH]; intros a j inside H;
    cbn [length seq point_in_polygon_loop ring_loop].
  - reflexivity.
  - destruct (skipn_head point origin v vs a poly H) as [Hn Hs].
    rewrite Hn. unfold rbind.
    destruct (edge_toggles pt v (nth j poly origin)) as [c | e];
      [|reflexivity].
    rewrite (IH (S a) a _ Hs). now rewrite Hn.
Qed.

Lemma nth_last_vertex (poly : polygon) :
  nth (length poly - 1) poly origin = last poly origin.
Proof.
  destruct poly as [|v poly]; [reflexivity|].
  destruct (exists_last (l := v :: poly)) as [front [l E]]; [discriminate|].
  rewrite E, last_last, length_app. cbn [length].
  replace (length front + 1 - 1)%nat with (length front) by lia.
  now rewrite nth_middle.
Qed.

Lemma point_in_polygon_ring (pt : point) (poly : polygon) :
  point_in_polygon pt poly = ring_loop pt (last poly origin) poly false.
Proof.
  unfold point_in_polygon.
  rewrite (point_in_polygon_loop_ring pt poly poly 0 _ false eq_refl).
  now rewrite nth_last_vertex.
Qed.

Lemma ring_loop_edges (pt : point) (vs : list point) :
  forall (prev : point) (inside : bool),
    ring_loop pt prev vs inside = edges_loop pt (edges_after prev vs) inside.
Proof.
  induction vs as [|v vs IH]; intros prev inside;
    cbn [ring_loop edges_after edges_loop]; [reflexivity|].
  destruct (edge_toggles pt v prev); [apply IH | reflexivity].
Qed.

Lemma edges_after_snoc (vs : list point) :
  forall (prev v : point),
    edges_after prev (vs ++ [v]) =
    edges_after prev vs ++ [(v, last (prev :: vs) origin)].
Proof.
  induction vs as [|w vs IH]; intros prev v; cbn [app edges_after].
  - reflexivity.
  - rewrite IH. reflexivity.
Qed.

(** The one exception an edge can raise. *)
Lemma edge_toggles_raises (pt v prev : point) (e : exn) :
  edge_toggles pt v prev = Raise e -> e = ZeroDivisionError.
Proof.
  destruct pt as [x y], v as [xi yi], prev as [xj yj]. unfold edge_toggles.
  destruct (negb (Bool.eqb (y <? yi) (y <? yj))); [|discriminate].
  unfold truediv. destruct (yj - yi + 1e-10 =? 0); cbn [rbind]; congruence.
Qed.

Lemma edges_loop_swap (pt : point) (e1 e2 : point * point)
    (edges : list (point * point)) (inside : bool) :
  edges_loop pt (e1 :: e2 :: edges) inside =
  edges_loop pt (e2 :: e1 :: edges) inside.
Proof.
  destruct e1 as [v1 w1], e2 as [v2 w2]. cbn [edges_loop].
  destruct (edge_toggles pt v1 w1) as [c1 | x1] eqn:E1,
           (edge_toggles pt v2 w2) as [c2 | x2] eqn:E2; try reflexivity.
  - now destruct c1, c2, inside.
  - apply edge_toggles_raises in E1, E2. congruence.
Qed.

Lemma edges_loop_rotate (pt : point) (e : point * point)
    (edges : list (point * point)) :
  forall inside,
    edges_loop pt (e :: edges) inside = edges_loop pt (edges ++ [e]) inside.
Proof.
  induction edges as [|e' edges IH]; intro inside; [reflexivity|].
  rewrite edges_loop_swap. cbn [app]. destruct e' as [v' w'].
  cbn [edges_loop] in IH |- *.
  destruct (edge_toggles pt v' w'); [apply IH | reflexivity].
Qed.
End Ring.

(** X14: the vertex the ring starts from does not matter to
    [point_in_polygon]: a polygon and the same ring read from its next
    vertex get the same answer for every point, the exception included.
    The same edges are met, in another order. *)
Theorem point_in_polygon_ring_rotation (pt v : point) (poly : polygon) :
  point_in_polygon pt (poly ++ [v]) = point_in_polygon pt (v :: poly).
Proof.
  rewrite !point_in_polygon_ring, !ring_loop_edges.
  rewrite last_last, edges_after_snoc.
  cbn [edges_after]. symmetry. apply edges_loop_rotate.
Qed.

(** ** [polygon_line_intersections] *)

Lemma flat_map_length_le {A B : Type} (f : A -> list B) (l : list A) :
  (forall a, length (f a) <= 1)%nat ->
  (length (flat_map f l) <= length l)%nat.
Proof.
  intro H. induction l as [|a l IH]; cbn [flat_map length]; [lia|].
  rewrite length_app. specialize (H a). lia.
Qed.

Lemma edge_parameter_length (p q : point) (poly : polygon) (i : nat) :
  (length (edge_parameter p q poly i) <= 1)%nat.
Proof.
  unfold edge_parameter.
  destruct (line_intersection p q _ _) as [[t u]|]; [|cbn; lia].
  destruct (_ && _); cbn; lia.
Qed.

(** X15: the list that [polygon_line_intersections] returns is in
    ascending order, each of its parameters lies in [[0, 1]], and it holds
    at most one parameter for each edge: no more than the polygon has
    vertices, and none for the empty polygon. *)
Theorem polygon_line_intersections_sorted_unit_bounded
    (p q : point) (poly : polygon) :
  let ts := polygon_line_intersections p q poly in
  ascending (fun t => t) ts /\
  Forall (fun t => (0 <=? t)%float = true /\ (t <=? 1)%float = true) ts /\
  (length ts <= length poly)%nat.
Proof.
  intro ts. split; [|split].
  - apply polygon_line_intersections_ascending.
  - apply Forall_forall. intros t Ht.
    now apply (polygon_line_intersections_in_unit p q poly).
  - subst ts. unfold polygon_line_intersections, sorted.
    rewrite sort_by_length.
    pose proof (flat_map_length_le (edge_parameter p q poly)
                  (seq 0 (length poly)) (edge_parameter_length p q poly))
      as H.
    now rewrite length_seq in H.
Qed.

(** ** A segment of no length *)

Section DegenerateSegment.
Local Open Scope float_scope.

Lemma SFsub_self (s : spec_float) : zero_or_nan (SF64sub s s).
Proof.
  destruct s as [b | b | | b m e]; try (destruct b; exact I); try exact I.
  unfold SF64sub, SFsub. cbv zeta. rewrite Z.sub_diag. exact I.
Qed.

Lemma SFmul_zero_or_nan (x y : spec_float) :
  zero_or_nan x -> zero_or_nan (SF64mul x y).
Proof.
  destruct x as [b | b | | b m e]; try contradiction; intros _;
    destruct y; exact I.
Qed.

Lemma SFsub_zero_or_nan (x y : spec_float) :
  zero_or_nan x -> zero_or_nan y -> zero_or_nan (SF64sub x y).
Proof.
  destruct x as [b | b | | b m e]; try contradiction; intros _;
    destruct y as [c | c | | c n f]; try contradiction; intros _;
    try exact I; destruct b, c; exact I.
Qed.

(** The determinant of a segment with [q = p] is a zero or not a number,
    whatever the edge. *)
Lemma degenerate_denominator (x1 y1 a b : float) :
  zero_or_nan (Prim2SF ((x1 - x1) * a - (y1 - y1) * b)).
Proof.
  rewrite sub_spec, !mul_spec, !sub_spec.
  apply SFsub_zero_or_nan; apply SFmul_zero_or_nan; apply SFsub_self.
Qed.

Lemma leb_nan_r (x t : float) : Prim2SF t = S754_nan -> (x <=? t) = false.
Proof.
  intro H. rewrite leb_spec, H. unfold SFleb.
  now destruct (Prim2SF x).
Qed.

Lemma div_nan_r (x d : float) :
  Prim2SF d = S754_nan -> Prim2SF (x / d) = S754_nan.
Proof.
  intro H. rewrite div_spec, H. unfold SF64div.
  now destruct (Prim2SF x).
Qed.

Lemma below_epsilon_or_nan (d : float) :
  zero_or_nan (Prim2SF d) ->
  (abs d <? 1e-10) = true \/ Prim2SF d = S754_nan.
Proof.
  intro H. rewrite ltb_spec, abs_spec, Prim2SF_epsilon.
  destruct (Prim2SF d) as [s | s | | s m e]; try contradiction.
  - left. reflexivity.
  - right. reflexivity.
Qed.

Lemma line_intersection_degenerate (p a b : point) :
  match line_intersection p p a b with
  | None => True
  | Some (t, u) => (0 <=? t) = false
  end.
Proof.
  destruct p as [x1 y1], a as [x3 y3], b as [x4 y4].
  unfold line_intersection. cbv beta iota zeta.
  destruct (below_epsilon_or_nan _
              (degenerate_denominator x1 y1 (y3 - y4) (x3 - x4)))
    as [-> | Hnan]; [exact I|].
  destruct (abs ((x1 - x1) * (y3 - y4) - (y1 - y1) * (x3 - x4)) <? 1e-10);
    [exact I|].
  apply leb_nan_r. now apply div_nan_r.
Qed.

Lemma edge_parameter_degenerate (p : point) (poly : polygon) (i : nat) :
  edge_parameter p p poly i = [].
Proof.
  unfold edge_parameter.
  pose proof (line_intersection_degenerate p (nth i poly origin)
                (nth ((i + 1) mod length poly) poly origin)) as H.
  destruct (line_intersection p p _ _) as [[t u]|]; [|reflexivity].
  now rewrite H.
Qed.
End DegenerateSegment.

(** X16: a segment of no length ([q] is [p]) meets no edge: its list of
    intersection parameters is empty for every polygon and every point,
    infinite and not-a-number coordinates included, so [refine_path] never
    takes the intersection split on it. *)
Theorem polygon_line_intersections_degenerate_segment
    (p : point) (poly : polygon) :
  polygon_line_intersections p p poly = [].
Proof.
  unfold polygon_line_intersections.
  assert (H : flat_map (edge_parameter p p poly) (seq 0 (length poly)) = []).
  { induction (seq 0 (length poly)) as [|i range IH]; [reflexivity|].
    cbn [flat_map]. now rewrite edge_parameter_degenerate, IH. }
  now rewrite H.
Qed.

(** ** The depths that [main.py] records and plots *)

Section Depths.
Variable hypot : float -> float -> float.

Lemma calls_depths (fuel : nat) :
  forall (p q : point) (obstacles : list polygon) (tolerance : float)
         (depth : Z) (r : segment_record),
    In r (calls hypot fuel p q obstacles tolerance depth) ->
    (depth <= snd r < depth + Z.of_nat fuel)%Z.
Proof.
  induction fuel as [|fuel IH]; intros p q obstacles tolerance depth r H.
  - contradiction.
  - cbn [calls] in H. destruct H as [<- | H]; [cbn [snd]; lia|].
    destruct (call_outcome hypot p q obstacles tolerance) as [|mid|mid|e];
      try contradiction.
    apply in_app_or in H. destruct H as [H | H].
    + apply IH in H. lia.
    + destruct (path_of hypot fuel p mid obstacles tolerance);
        [|contradiction].
      apply IH in H. lia.
Qed.

Lemma fold_max_bounds (segments : list segment_record) :
  forall m : Z,
    (m <= fold_left (fun m r => Z.max m (snd r)) segments m)%Z /\
    forall r, In r segments ->
      (snd r <= fold_left (fun m r => Z.max m (snd r)) segments m)%Z.
Proof.
  induction segments as [|s segments IH]; intro m; cbn [fold_left].
  - split; [lia | contradiction].
  - destruct (IH (Z.max m (snd s))) as [Hm Hr]. split; [lia|].
    intros r [<- | H]; [lia | now apply Hr].
Qed.

Lemma max_depth_bounds (segments : list segment_record) (r : segment_record) :
  In r segments -> (snd r <= max_depth segments)%Z.
Proof.
  destruct segments as [|s segments]; [contradiction|].
  cbn [max_depth]. destruct (fold_max_bounds segments (snd s)) as [Hm Hr].
  intros [<- | H]; [exact Hm | now apply Hr].
Qed.
End Depths.

(** X17: after [segments.clear()] and a call of [refine_path] at depth
    [0], as the script of [main.py] makes it, every record holds a depth
    from [0] up to [max_depth], below the number of nested calls, and the
    colour argument [depth / (max_depth + 1)] of the plot is computed
    without a division by zero. *)
Theorem plotted_depths_in_range (hypot : float -> float -> float)
    (fuel : nat) (start goal : point) (obstacles : list polygon)
    (tolerance : float) (r : segment_record) :
  let segments :=
    snd (refine_path hypot fuel start goal obstacles tolerance 0 []) in
  In r segments ->
  (0 <= snd r <= max_depth segments)%Z /\
  (snd r < Z.of_nat fuel)%Z /\
  colour_argument segments r =
  Ok (float_of_Z (snd r) / float_of_Z (max_depth segments + 1))%float.
Proof.
  intros segments Hr.
  assert (Hd : (0 <= snd r < 0 + Z.of_nat fuel)%Z).
  { subst segments. rewrite refine_path_runs in Hr. cbn [snd app] in Hr.
    exact (calls_depths hypot fuel _ _ _ _ _ _ Hr). }
  pose proof (max_depth_bounds segments r Hr) as Hmax.
  split; [lia|]. split; [lia|].
  unfold colour_argument. apply int_truediv_nonzero. lia.
Qed.

Lemma plotted_depths_in_range_witness :
  In ((0, 0)%float, (3.9443650813895981, 7.0556349186104015)%float, 1%Z)
    (snd (refine_path hypot_sqrt 10 (0, 0)%float (10, 10)%float [square]
            0.1%float 0 [])) /\
  max_depth (snd (refine_path hypot_sqrt 10 (0, 0)%float (10, 10)%float
                    [square] 0.1%float 0 [])) = 1%Z /\
  colour_argument
    (snd (refine_path hypot_sqrt 10 (0, 0)%float (10, 10)%float [square]
            0.1%float 0 []))
    ((0, 0)%float, (3.9443650813895981, 7.0556349186104015)%float, 1%Z)
  = Ok 0.5%float.
Proof.
  assert (H : In ((0, 0)%float,
                  (3.9443650813895981, 7.0556349186104015)%float, 1%Z)
                (snd (refine_path hypot_sqrt 10 (0, 0)%float (10, 10)%float
                        [square] 0.1%float 0 [])))
    by (vm_compute; right; left; reflexivity).
  split; [exact H|]. split; [vm_compute; reflexivity|].
  destruct (plotted_depths_in_range hypot_sqrt 10 (0, 0)%float (10, 10)%float
              [square] 0.1%float _ H) as [_ [_ Hc]].
  rewrite Hc. vm_compute. reflexivity.
Defined.
